(** * AvlTree: the search tree of [search_tree.cpp]

    A shallow embedding of the three class templates of the repository,
    [TSearchTree<T, IsMultiSet>], [TAvlTree<T, IsMultiSet>] and
    [TAvlTreeWithSize<T, IsMultiSet>], instantiated at [T = int64_t] as in
    both drivers of the file, followed by the properties of the
    specification that concern them.

    Conventions of the embedding.
    - A [std::shared_ptr<Node>] is a [NodePtr]: [nullptr] or a node with its
      payload and its two owned children.  The [parent_] back link is a
      [std::weak_ptr] that only [IsLeftSon], [IsRightSon], the iterator steps
      and the debug dump read; in the embedding it is the position of the
      node in the tree, so the statements [x->parent_ = y] of the source
      leave no trace except for the dereference they perform.
    - Dereferencing a null [shared_ptr] is undefined behaviour; every
      function that can do so returns an [option] and [None] stands for it.
    - [size_t] fields are integers with the wrap-around modulo [2^64]
      written out, the [int] returned by [HeightDiff] is the 32 bit
      two's-complement reading of the [size_t] difference.
    - The virtual functions [Balance], [CreateNode] and [RenewNodesHeight]
      dispatch on a [TreeClass], the template flag [IsMultiSet] is a
      boolean variable of the section.
    - Values are only compared, never computed with, so an [int64_t] value
      is an integer. *)

From Stdlib Require Import String.
From Stdlib Require Import ZArith List Lia Bool.
From Equations Require Import Equations.
Import ListNotations.

Local Open Scope Z_scope.

(** ** Machine integers *)

Definition to_size_t (z : Z) : Z := z mod 2 ^ 64.

Definition to_int (z : Z) : Z :=
  let r := z mod 2 ^ 32 in
  if r <? 2 ^ 31 then r else r - 2 ^ 32.

(** ** The error monad of null dereferences *)

Definition bind {A B : Type} (m : option A) (f : A -> option B) : option B :=
  match m with
  | Some a => f a
  | None => None
  end.

Notation "x <- m ;; k" := (bind m (fun x => k))
  (at level 61, m at next level, right associativity).
Notation "' p <- m ;; k" := (bind m (fun x => let p := x in k))
  (at level 61, p pattern, m at next level, right associativity).

(** ** Nodes *)

(** The data members of [Node], [AvlNode] and [AvlNodeWithSize] other than
    the three links.  [height_] is [AvlNode::height_] and [subtree_size_] is
    [AvlNodeWithSize::size_] (renamed: the tree has a [size_] of its own);
    a class that lacks one of them carries its initial value [1] along. *)
Record Node : Type := mkNode {
  value_ : Z;
  cnt_ : Z;
  height_ : Z;
  subtree_size_ : Z
}.

Inductive NodePtr : Type :=
| nullptr : NodePtr
| Ptr (left_ : NodePtr) (n : Node) (right_ : NodePtr) : NodePtr.

Inductive TreeClass : Type := TSearchTree | TAvlTree | TAvlTreeWithSize.

(** [(bool) ptr] *)
Definition to_bool (p : NodePtr) : bool :=
  match p with
  | nullptr => false
  | Ptr _ _ _ => true
  end.

(** Number of nodes of a subtree, the measure of the recursion of erase. *)
Fixpoint nodes (p : NodePtr) : nat :=
  match p with
  | nullptr => 0%nat
  | Ptr l _ r => S (nodes l + nodes r)
  end.

(** ** Observations used by the statements *)

(** In-order sequence of the payloads. *)
Fixpoint inorder (p : NodePtr) : list Node :=
  match p with
  | nullptr => []
  | Ptr l n r => inorder l ++ n :: inorder r
  end.

(** In-order sequence of the values. *)
Definition values (p : NodePtr) : list Z := map value_ (inorder p).

(** In-order sequence of the pairs (value, occurrence count). *)
Definition entry (n : Node) : Z * Z := (value_ n, cnt_ n).
Definition entries (p : NodePtr) : list (Z * Z) := map entry (inorder p).

(** ** Static helpers of [TSearchTree] *)

(** [std::swap] of [value_] and of [cnt_] between two nodes; the other
    members stay with their node. *)
Definition SwapNodesValue (n1 n2 : Node) : Node * Node :=
  (mkNode (value_ n2) (cnt_ n2) (height_ n1) (subtree_size_ n1),
   mkNode (value_ n1) (cnt_ n1) (height_ n2) (subtree_size_ n2)).

Fixpoint FindMin (node : NodePtr) : NodePtr :=
  match node with
  | nullptr => nullptr
  | Ptr nullptr _ _ => node
  | Ptr l _ _ => FindMin l
  end.

Fixpoint FindMax (node : NodePtr) : NodePtr :=
  match node with
  | nullptr => nullptr
  | Ptr _ _ nullptr => node
  | Ptr _ _ r => FindMax r
  end.

(** A write of the payload [n] through the pointer [FindMin node]: the node
    that pointer aliases is the leftmost one of the subtree. *)
Fixpoint StoreMin (n : Node) (node : NodePtr) : NodePtr :=
  match node with
  | nullptr => nullptr
  | Ptr nullptr _ r => Ptr nullptr n r
  | Ptr l m r => Ptr (StoreMin n l) m r
  end.

(** ** [TAvlTree]: heights and rotations *)

Definition NodeHeight (node : NodePtr) : Z :=
  match node with
  | nullptr => 0
  | Ptr _ n _ => height_ n
  end.

Definition NodeSize (node : NodePtr) : Z :=
  match node with
  | nullptr => 0
  | Ptr _ n _ => subtree_size_ n
  end.

(** The subtraction is done in [size_t] and converted to [int]. *)
Definition HeightDiff (node : NodePtr) : Z :=
  match node with
  | nullptr => 0
  | Ptr l _ r => to_int (to_size_t (NodeHeight l - NodeHeight r))
  end.

Section Classes.

Variable cls : TreeClass.
Variable IsMultiSet : bool.

(** [TAvlTree::RenewNodesHeight] and its override in [TAvlTreeWithSize]. *)
Definition RenewNodesHeight (node : NodePtr) : NodePtr :=
  match node with
  | nullptr => nullptr
  | Ptr l n r =>
      let h := to_size_t (Z.max (NodeHeight r) (NodeHeight l) + 1) in
      match cls with
      | TAvlTreeWithSize =>
          let s := to_size_t (to_size_t (NodeSize r + NodeSize l) + 1) in
          Ptr l (mkNode (value_ n) (cnt_ n) h s) r
      | _ => Ptr l (mkNode (value_ n) (cnt_ n) h (subtree_size_ n)) r
      end
  end.

(** [node] and [node->left()] are dereferenced without a test. *)
Definition RotateRight (node : NodePtr) : option NodePtr :=
  match node with
  | Ptr (Ptr sl son T2) n r =>
      Some (RenewNodesHeight (Ptr sl son (RenewNodesHeight (Ptr T2 n r))))
  | _ => None
  end.

Definition RotateLeft (node : NodePtr) : option NodePtr :=
  match node with
  | Ptr l n (Ptr T2 son sr) =>
      Some (RenewNodesHeight (Ptr (RenewNodesHeight (Ptr l n T2)) son sr))
  | _ => None
  end.

Definition RightRotation (node : NodePtr) : option NodePtr :=
  match node with
  | nullptr => None
  | Ptr l n r =>
      if HeightDiff l >=? 0 then RotateRight node
      else
        l' <- RotateLeft l ;;
        RotateRight (Ptr l' n r)
  end.

Definition LeftRotation (node : NodePtr) : option NodePtr :=
  match node with
  | nullptr => None
  | Ptr l n r =>
      if HeightDiff r <=? 0 then RotateLeft node
      else
        r' <- RotateRight r ;;
        RotateLeft (Ptr l n r')
  end.

Definition BalanceNode (node : NodePtr) : option NodePtr :=
  match node with
  | nullptr => Some nullptr
  | Ptr _ _ _ =>
      let node := RenewNodesHeight node in
      let node_height := HeightDiff node in
      if node_height <? -1 then LeftRotation node
      else if node_height >? 1 then RightRotation node
      else Some node
  end.

(** ** The virtual hooks *)

Definition Balance (node : NodePtr) : option NodePtr :=
  match cls with
  | TSearchTree => Some node
  | _ => BalanceNode node
  end.

(** [cnt_], [height_] and [size_] have the default member initialiser 1. *)
Definition CreateNode (value : Z) : NodePtr :=
  Ptr nullptr (mkNode value 1 1 1) nullptr.

(** ** Insertion *)

Definition InsertIfFound (cur_node : Node) : Node :=
  if IsMultiSet
  then mkNode (value_ cur_node) (to_size_t (cnt_ cur_node + 1))
              (height_ cur_node) (subtree_size_ cur_node)
  else cur_node.

(** The member [size_] of the tree is threaded through the recursion. *)
Fixpoint InsertRecursive (value : Z) (node : NodePtr) (size : Z)
  : option (NodePtr * Z) :=
  match node with
  | nullptr => Some (CreateNode value, to_size_t (size + 1))
  | Ptr l n r =>
      if value_ n =? value then
        b <- Balance (Ptr l (InsertIfFound n) r) ;;
        Some (b, size)
      else if value_ n >? value then
        '(l', size') <- InsertRecursive value l size ;;
        b <- Balance (Ptr l' n r) ;;
        Some (b, size')
      else
        '(r', size') <- InsertRecursive value r size ;;
        b <- Balance (Ptr l n r') ;;
        Some (b, size')
  end.

End Classes.

(** ** Erasure

    [EraseRecursive] and [EraseIfFound] call each other, and the call in
    [EraseIfFound] is on [node->right_] after the swap has written into its
    leftmost node: the recursion is on the number of nodes.  No virtual
    function is called on this path, so it is the same for the three
    classes and for both values of [IsMultiSet].

    [EraseIfFound] dereferences [change_node = FindMin(node->right_)]
    without a test.  That pointer is null only if [node->right_] is, which
    the branch excludes ([FindMin_not_null] below), so the clause for a null
    [change_node] is never taken and [EraseRecursive] is a total function. *)

Equations? EraseRecursive (value : Z) (node : NodePtr) : NodePtr
  by wf (nodes node) lt :=
  EraseRecursive value nullptr := nullptr;
  EraseRecursive value (Ptr l n r) with (value_ n =? value) => {
    | true with (negb (to_bool l) || negb (to_bool r)), FindMin r => {
        | true, _ := if to_bool l then l else r;
        | false, nullptr := Ptr l n r;
        | false, Ptr _ change_node _ :=
            Ptr l (fst (SwapNodesValue n change_node))
                (EraseRecursive
                   (value_ (snd (SwapNodesValue n change_node)))
                   (StoreMin (snd (SwapNodesValue n change_node)) r)) };
    | false with (value_ n >? value) => {
        | true := Ptr (EraseRecursive value l) n r;
        | false := Ptr l n (EraseRecursive value r) } }.
Proof.
  all: try lia.
  assert (E : forall m p, nodes (StoreMin m p) = nodes p).
  { intros m p. induction p as [|pl IH pn pr _]; [reflexivity|].
    destruct pl; simpl in *; [reflexivity|]. now rewrite IH. }
  rewrite E. lia.
Qed.

(** The body of [EraseIfFound], with the recursive call it makes. *)
Definition EraseIfFound (node : NodePtr) : NodePtr :=
  match node with
  | nullptr => nullptr
  | Ptr l n r =>
      if negb (to_bool l) || negb (to_bool r) then
        if to_bool l then l else r
      else
        match FindMin r with
        | nullptr => node
        | Ptr _ change_node _ =>
            let '(n', change_node') := SwapNodesValue n change_node in
            Ptr l n' (EraseRecursive (value_ change_node')
                                     (StoreMin change_node' r))
        end
  end.

(** ** Search *)

Fixpoint FindRecursive (value : Z) (node : NodePtr) : NodePtr :=
  match node with
  | nullptr => nullptr
  | Ptr l n r =>
      if value_ n =? value then node
      else if value_ n >? value then FindRecursive value l
      else FindRecursive value r
  end.

(** The loop of [Next]: [cur_node] walks down, [next] is the candidate. *)
Fixpoint NextLoop (value : Z) (cur_node next : NodePtr) : NodePtr :=
  match cur_node with
  | nullptr => next
  | Ptr l n r =>
      if value_ n >? value then
        NextLoop value l
          (match next with
           | nullptr => cur_node
           | Ptr _ m _ => if value_ n <? value_ m then cur_node else next
           end)
      else NextLoop value r next
  end.

Fixpoint PrevLoop (value : Z) (cur_node prev : NodePtr) : NodePtr :=
  match cur_node with
  | nullptr => prev
  | Ptr l n r =>
      if value_ n <? value then
        PrevLoop value r
          (match prev with
           | nullptr => cur_node
           | Ptr _ m _ => if value_ n >? value_ m then cur_node else prev
           end)
      else PrevLoop value l prev
  end.

(** ** The tree object and its public operations *)

Record Tree : Type := mkTree {
  root_ : NodePtr;
  size_ : Z
}.

(** The state a default-constructed tree is in. *)
Definition empty_tree : Tree := mkTree nullptr 0.

(** An iterator holds a node pointer. *)
Definition Iterator : Type := NodePtr.

Definition IsValid (it : Iterator) : bool := to_bool it.

(** [operator*]; dereferencing the end iterator is undefined. *)
Definition deref (it : Iterator) : option Z :=
  match it with
  | nullptr => None
  | Ptr _ n _ => Some (value_ n)
  end.

Section Operations.

Variable cls : TreeClass.
Variable IsMultiSet : bool.

(** [root_->parent_ = nullptr] dereferences [root_]. *)
Definition Insert (value : Z) (t : Tree) : option Tree :=
  '(root, size) <- InsertRecursive cls IsMultiSet value (root_ t) (size_ t) ;;
  match root with
  | nullptr => None
  | Ptr _ _ _ => Some (mkTree root size)
  end.

Definition Erase (value : Z) (t : Tree) : option Tree :=
  let root := EraseRecursive value (root_ t) in
  match root with
  | nullptr => None
  | Ptr _ _ _ => Some (mkTree root (size_ t))
  end.

Definition Exsist (value : Z) (t : Tree) : bool :=
  to_bool (FindRecursive value (root_ t)).

Definition Size (t : Tree) : Z := size_ t.

Definition Empty (t : Tree) : bool := size_ t =? 0.

Definition Find (value : Z) (t : Tree) : Iterator :=
  FindRecursive value (root_ t).

Definition Next (value : Z) (t : Tree) : Iterator :=
  NextLoop value (root_ t) nullptr.

Definition Prev (value : Z) (t : Tree) : Iterator :=
  PrevLoop value (root_ t) nullptr.

Definition Begin (t : Tree) : Iterator := FindMin (root_ t).

Definition End (t : Tree) : Iterator := nullptr.

(** A call of the command processor of [main2]. *)
Inductive Op : Type :=
| OInsert (value : Z)
| OErase (value : Z).

Definition step (o : Op) (t : Tree) : option Tree :=
  match o with
  | OInsert v => Insert v t
  | OErase v => Erase v t
  end.

(** A sequence of calls, stopping at the first undefined one. *)
Fixpoint run (ops : list Op) (t : Tree) : option Tree :=
  match ops with
  | [] => Some t
  | o :: ops' => t' <- step o t ;; run ops' t'
  end.

End Operations.

(** ** Iterators that walk: [operator++] and [operator--]

    The two operators follow [parent_] links.  A node pointer that is
    walked is therefore kept with the chain of its ancestors, each with the
    side the path comes from, the payload of the ancestor and its other
    subtree: this is what the [parent_] links hold when the [parent_] of
    every son is its parent, which the statements [x->parent_ = y] of
    [Insert], [Erase] and the rotations re-establish before a public
    operation returns.  The parent of the root is null. *)

Inductive Frame : Type :=
| LeftSonOf (n : Node) (right_ : NodePtr)
| RightSonOf (left_ : NodePtr) (n : Node).

(** The parent, given the son. *)
Definition plug (f : Frame) (son : NodePtr) : NodePtr :=
  match f with
  | LeftSonOf n r => Ptr son n r
  | RightSonOf l n => Ptr l n son
  end.

Record BaseIterator : Type := mkIt {
  node_ptr : NodePtr;
  parents : list Frame
}.

(** [Iterator(nullptr)] *)
Definition EndIt : BaseIterator := mkIt nullptr [].

(** [node_ptr->parent_.lock()], for a non-null [node_ptr]. *)
Definition parent_lock (node : NodePtr) (up : list Frame) : BaseIterator :=
  match up with
  | [] => EndIt
  | f :: up' => mkIt (plug f node) up'
  end.

(** [IsRightSon] and [IsLeftSon], for a non-null pointer. *)
Definition IsRightSon (up : list Frame) : bool :=
  match up with
  | RightSonOf _ _ :: _ => true
  | _ => false
  end.

Definition IsLeftSon (up : list Frame) : bool :=
  match up with
  | LeftSonOf _ _ :: _ => true
  | _ => false
  end.

(** [FindMin] and [FindMax], keeping the chain of the node they reach. *)
Fixpoint FindMinIt (node : NodePtr) (up : list Frame) : BaseIterator :=
  match node with
  | nullptr => mkIt nullptr up
  | Ptr l n r =>
      match l with
      | nullptr => mkIt node up
      | Ptr _ _ _ => FindMinIt l (LeftSonOf n r :: up)
      end
  end.

Fixpoint FindMaxIt (node : NodePtr) (up : list Frame) : BaseIterator :=
  match node with
  | nullptr => mkIt nullptr up
  | Ptr l n r =>
      match r with
      | nullptr => mkIt node up
      | Ptr _ _ _ => FindMaxIt r (RightSonOf l n :: up)
      end
  end.

(** [while (IsRightSon(node_ptr)) node_ptr = node_ptr->parent_.lock();] *)
Fixpoint climb_while_right_son (node : NodePtr) (up : list Frame)
  : BaseIterator :=
  match up with
  | RightSonOf l n :: up' => climb_while_right_son (Ptr l n node) up'
  | _ => mkIt node up
  end.

Fixpoint climb_while_left_son (node : NodePtr) (up : list Frame)
  : BaseIterator :=
  match up with
  | LeftSonOf n r :: up' => climb_while_left_son (Ptr node n r) up'
  | _ => mkIt node up
  end.

(** [operator++]; [node_ptr->right_] dereferences [node_ptr]. *)
Definition increment (it : BaseIterator) : option BaseIterator :=
  match node_ptr it with
  | nullptr => None
  | Ptr l n r =>
      match r with
      | Ptr _ _ _ => Some (FindMinIt r (RightSonOf l n :: parents it))
      | nullptr =>
          let top := climb_while_right_son (node_ptr it) (parents it) in
          Some (parent_lock (node_ptr top) (parents top))
      end
  end.

(** [operator--] *)
Definition decrement (it : BaseIterator) : option BaseIterator :=
  match node_ptr it with
  | nullptr => None
  | Ptr l n r =>
      match l with
      | Ptr _ _ _ => Some (FindMaxIt l (LeftSonOf n r :: parents it))
      | nullptr =>
          let top := climb_while_left_son (node_ptr it) (parents it) in
          Some (parent_lock (node_ptr top) (parents top))
      end
  end.

(** [Begin()], with the chain of the node it returns. *)
Definition BeginIt (t : Tree) : BaseIterator := FindMinIt (root_ t) [].

(** [n] times [++it]. *)
Fixpoint advance (n : nat) (it : BaseIterator) : option BaseIterator :=
  match n with
  | O => Some it
  | S n' => it' <- increment it ;; advance n' it'
  end.

(** ** Reverse iterators

    [ReverseIterator] is [std::reverse_iterator<Iterator>]: it holds an
    iterator [current]; [*r] is [*--tmp] for a copy [tmp] of [current] and
    [++r] is [--current].  [RBegin()] wraps the node made by
    [CreateFakeNodeWithLeftSon]: its value is [root_->value_], its [left_]
    is the node [FindMax(root_)], whose [parent_] is left as it is, and it
    has no parent itself.  [REnd()] wraps [Begin()]. *)

Inductive ReverseIterator : Type :=
| FakeNode (value : Z) (left_ : BaseIterator)
| RealNode (current : BaseIterator).

(** [root_->value_] dereferences [root_]. *)
Definition CreateFakeNodeWithLeftSon (t : Tree) (node : BaseIterator)
  : option ReverseIterator :=
  match root_ t with
  | nullptr => None
  | Ptr _ n _ => Some (FakeNode (value_ n) node)
  end.

Definition RBegin (t : Tree) : option ReverseIterator :=
  CreateFakeNodeWithLeftSon t (FindMaxIt (root_ t) []).

Definition REnd (t : Tree) : ReverseIterator := RealNode (BeginIt t).

(** [--current]: on the fake node [operator--] takes [FindMax] of the left
    son if there is one, and otherwise the parent, which is null. *)
Definition decrement_current (r : ReverseIterator) : option BaseIterator :=
  match r with
  | FakeNode _ son =>
      match node_ptr son with
      | Ptr _ _ _ => Some (FindMaxIt (node_ptr son) (parents son))
      | nullptr => Some EndIt
      end
  | RealNode current => decrement current
  end.

(** [*r] *)
Definition rderef (r : ReverseIterator) : option Z :=
  tmp <- decrement_current r ;; deref (node_ptr tmp).

(** [++r] *)
Definition rincrement (r : ReverseIterator) : option ReverseIterator :=
  current <- decrement_current r ;; Some (RealNode current).

(** [n] times [++r]. *)
Fixpoint radvance (n : nat) (r : ReverseIterator) : option ReverseIterator :=
  match n with
  | O => Some r
  | S n' => r' <- rincrement r ;; radvance n' r'
  end.

(** ** The command processor [main2]

    [main2] reads pairs of a command name and an [int64_t] from [std::cin]
    and runs them on a [TAvlTree<int64_t, false>].  Its input here is the
    list of the pairs that the two extractions of a turn of the loop read;
    its result is the list of the lines it writes, [None] when a call has
    no defined result. *)

(** What is written before a newline: a string or an [int64_t]. *)
Inductive Line : Type :=
| Text (s : string)
| Number (x : Z).

(** [if (res.IsValid()) std::cout << *res; else std::cout << "none";] *)
Definition print_iterator (res : Iterator) : option (list Line) :=
  if IsValid res then x <- deref res ;; Some [Number x]
  else Some [Text "none"].

(** The body of the loop. *)
Definition main2_command (s : string) (x : Z) (searchTree : Tree)
  : option (Tree * list Line) :=
  if String.eqb s "insert" then
    t <- Insert TAvlTree false x searchTree ;; Some (t, [])
  else if String.eqb s "delete" then
    t <- Erase x searchTree ;; Some (t, [])
  else if String.eqb s "exists" then
    Some (searchTree,
          [Text (if Exsist x searchTree then "true" else "false")])
  else if String.eqb s "next" then
    out <- print_iterator (Next x searchTree) ;; Some (searchTree, out)
  else if String.eqb s "prev" then
    out <- print_iterator (Prev x searchTree) ;; Some (searchTree, out)
  else Some (searchTree, []).

Fixpoint main2_loop (input : list (string * Z)) (searchTree : Tree)
  : option (list Line) :=
  match input with
  | [] => Some []
  | (s, x) :: rest =>
      '(t, out) <- main2_command s x searchTree ;;
      outs <- main2_loop rest t ;;
      Some (out ++ outs)
  end.

Definition main2 (input : list (string * Z)) : option (list Line) :=
  main2_loop input empty_tree.

(** * Specification

    The predicates and the list functions the statements are written
    with. *)

(** ** The order invariant *)

(** Every value of the subtree satisfies [P]. *)
Fixpoint All (P : Z -> Prop) (p : NodePtr) : Prop :=
  match p with
  | nullptr => True
  | Ptr l n r => All P l /\ P (value_ n) /\ All P r
  end.

(** For every node, the values of its left subtree are below its value and
    those of its right subtree are above. *)
Fixpoint bst (p : NodePtr) : Prop :=
  match p with
  | nullptr => True
  | Ptr l n r =>
      bst l /\ bst r /\
      All (fun v => v < value_ n) l /\ All (fun v => value_ n < v) r
  end.

(** Strictly increasing lists. *)
Fixpoint sorted (l : list Z) : Prop :=
  match l with
  | [] => True
  | a :: l' => Forall (fun v => a < v) l' /\ sorted l'
  end.

(** ** Insertion and erasure on in-order sequences *)

(** What [InsertIfFound] does to the pair of a node. *)
Definition bump (ms : bool) (e : Z * Z) : Z * Z :=
  (fst e, if ms then to_size_t (snd e + 1) else snd e).

Fixpoint ins_list (ms : bool) (v : Z) (es : list (Z * Z)) : list (Z * Z) :=
  match es with
  | [] => [(v, 1)]
  | e :: es' =>
      if fst e =? v then bump ms e :: es'
      else if fst e >? v then (v, 1) :: es
      else e :: ins_list ms v es'
  end.

Definition del_list (v : Z) (es : list (Z * Z)) : list (Z * Z) :=
  filter (fun e => negb (fst e =? v)) es.

(** The pairs of the tree after a call that returns; [Op] is a call. *)
Definition step_list (ms : bool) (o : Op) (es : list (Z * Z)) : list (Z * Z) :=
  match o with
  | OInsert v => ins_list ms v es
  | OErase v => del_list v es
  end.

(** ** Occurrence counts *)

Definition counts_one (p : NodePtr) : Prop :=
  Forall (fun n => cnt_ n = 1) (inorder p).


(** ** The results of [Next] and [Prev] *)

(** The value a candidate pointer holds, if any. *)
Definition cand (p : NodePtr) : list Z :=
  match p with
  | nullptr => []
  | Ptr _ m _ => [value_ m]
  end.

(** [res] points to the least of [vals] above [x], or is null when no
    element of [vals] is above [x]. *)
Definition least_above (x : Z) (vals : list Z) (res : Iterator) : Prop :=
  match res with
  | nullptr => forall w, In w vals -> w <= x
  | Ptr _ m _ =>
      In (value_ m) vals /\ x < value_ m /\
      forall w, In w vals -> x < w -> value_ m <= w
  end.

(** [res] points to the greatest of [vals] below [x], or is null when no
    element of [vals] is below [x]. *)
Definition greatest_below (x : Z) (vals : list Z) (res : Iterator) : Prop :=
  match res with
  | nullptr => forall w, In w vals -> x <= w
  | Ptr _ m _ =>
      In (value_ m) vals /\ value_ m < x /\
      forall w, In w vals -> w < x -> w <= value_ m
  end.

(** ** Stored heights

    [Erase] does not renew heights, so the stored height of a node may
    exceed the height of its subtree; it is never below one more than the
    stored heights of its children.  As long as stored heights stay below
    [INT_MAX] the difference computed by [HeightDiff] is exact and no
    rotation dereferences a null pointer. *)

Fixpoint heights_ok (p : NodePtr) : Prop :=
  match p with
  | nullptr => True
  | Ptr l n r =>
      heights_ok l /\ heights_ok r /\
      Z.max (NodeHeight l) (NodeHeight r) + 1 <= height_ n
  end.

Definition INT_MAX : Z := 2 ^ 31 - 1.

(** The classes that keep heights need them sane; the base class does not
    look at them. *)
Definition sane (cls : TreeClass) (p : NodePtr) : Prop :=
  match cls with
  | TSearchTree => True
  | _ => heights_ok p /\ NodeHeight p < INT_MAX
  end.

(** ** The AVL invariant *)

(** Height and number of nodes, recomputed bottom-up. *)
Fixpoint height (p : NodePtr) : Z :=
  match p with
  | nullptr => 0
  | Ptr l _ r => Z.max (height l) (height r) + 1
  end.

Fixpoint count (p : NodePtr) : Z :=
  match p with
  | nullptr => 0
  | Ptr l _ r => count l + count r + 1
  end.

(** Every node is balanced. *)
Fixpoint balanced (p : NodePtr) : Prop :=
  match p with
  | nullptr => True
  | Ptr l _ r =>
      balanced l /\ balanced r /\ -1 <= height l - height r <= 1
  end.

(** Every stored height is the recomputed one. *)
Fixpoint heights_exact (p : NodePtr) : Prop :=
  match p with
  | nullptr => True
  | Ptr l n r =>
      heights_exact l /\ heights_exact r /\ height_ n = height p
  end.

(** Every stored subtree size is the recomputed one, as a [size_t]. *)
Fixpoint sizes_exact (p : NodePtr) : Prop :=
  match p with
  | nullptr => True
  | Ptr l n r =>
      sizes_exact l /\ sizes_exact r /\
      subtree_size_ n = to_size_t (count p)
  end.

Definition AvlInvariant (cls : TreeClass) (p : NodePtr) : Prop :=
  balanced p /\ heights_exact p /\
  (cls = TAvlTreeWithSize -> sizes_exact p).

(** ** What an iterator has passed and what it has ahead *)

(** The payloads before and after the subtree a chain hangs. *)
Fixpoint passed_above (up : list Frame) : list Node :=
  match up with
  | [] => []
  | LeftSonOf _ _ :: up' => passed_above up'
  | RightSonOf l n :: up' => passed_above up' ++ inorder l ++ [n]
  end.

Fixpoint ahead_above (up : list Frame) : list Node :=
  match up with
  | [] => []
  | LeftSonOf n r :: up' => n :: inorder r ++ ahead_above up'
  | RightSonOf _ _ :: up' => ahead_above up'
  end.

(** The tree an iterator is in. *)
Fixpoint whole (node : NodePtr) (up : list Frame) : NodePtr :=
  match up with
  | [] => node
  | f :: up' => whole (plug f node) up'
  end.

(** The payloads before the node of the iterator, and those from it on;
    both are empty for the end iterator. *)
Definition passed (it : BaseIterator) : list Node :=
  match node_ptr it with
  | nullptr => []
  | Ptr l _ _ => passed_above (parents it) ++ inorder l
  end.

Definition ahead (it : BaseIterator) : list Node :=
  match node_ptr it with
  | nullptr => []
  | Ptr _ n r => n :: inorder r ++ ahead_above (parents it)
  end.

(** ** The right spine *)

(** Number of nodes on the path that follows [right_] from a node. *)
Fixpoint right_spine (p : NodePtr) : Z :=
  match p with
  | nullptr => 0
  | Ptr _ _ r => right_spine r + 1
  end.

(** ** A set of integers kept in a list

    The program [main2] is compared with: the same commands on a list that
    holds the values present, in any order and with repetitions. *)

Fixpoint least (l : list Z) : option Z :=
  match l with
  | [] => None
  | a :: l' =>
      match least l' with
      | None => Some a
      | Some b => Some (Z.min a b)
      end
  end.

Fixpoint greatest (l : list Z) : option Z :=
  match l with
  | [] => None
  | a :: l' =>
      match greatest l' with
      | None => Some a
      | Some b => Some (Z.max a b)
      end
  end.

Definition print_option (o : option Z) : list Line :=
  match o with
  | Some x => [Number x]
  | None => [Text "none"]
  end.

(** A [delete] that leaves no value has no defined result. *)
Definition set_command (s : string) (x : Z) (l : list Z)
  : option (list Z * list Line) :=
  if String.eqb s "insert" then Some (x :: l, [])
  else if String.eqb s "delete" then
    match filter (fun w => negb (w =? x)) l with
    | [] => None
    | l' => Some (l', [])
    end
  else if String.eqb s "exists" then
    Some (l, [Text (if existsb (fun w => w =? x) l then "true" else "false")])
  else if String.eqb s "next" then
    Some (l, print_option (least (filter (fun w => x <? w) l)))
  else if String.eqb s "prev" then
    Some (l, print_option (greatest (filter (fun w => w <? x) l)))
  else Some (l, []).

Fixpoint set_loop (input : list (string * Z)) (l : list Z)
  : option (list Line) :=
  match input with
  | [] => Some []
  | (s, x) :: rest =>
      '(l', out) <- set_command s x l ;;
      outs <- set_loop rest l' ;;
      Some (out ++ outs)
  end.

(** The tree of [main2] and the list of the set program hold the same
    values. *)
Definition same_values (t : Tree) (l : list Z) : Prop :=
  bst (root_ t) /\ heights_ok (root_ t) /\
  forall w, In w (values (root_ t)) <-> In w l.

(** ** The calls of the drivers *)

(** The calls of [main1]. *)
Definition main1_values : list Z :=
  [10; 2; 6; 8; 3; 6; 1; 9; 3; 15; 13; 11; 12; 18].

(** * Properties *)

Ltac bind_inv H :=
  match type of H with
  | bind ?m _ = Some _ =>
      let E := fresh "E" in
      destruct m eqn:E; cbn [bind] in H; [|discriminate H]
  end.

(** ** Erasure unfolds as in the source *)

Lemma nodes_StoreMin n node : nodes (StoreMin n node) = nodes node.
Proof.
  induction node as [|l IHl m r _]; [reflexivity|].
  destruct l; simpl in *; [reflexivity|].
  now rewrite IHl.
Qed.

Lemma EraseRecursive_body value node :
  EraseRecursive value node =
  match node with
  | nullptr => nullptr
  | Ptr l n r =>
      if value_ n =? value then EraseIfFound node
      else if value_ n >? value then Ptr (EraseRecursive value l) n r
      else Ptr l n (EraseRecursive value r)
  end.
Proof.
  destruct node as [|l n r]; simp EraseRecursive; [reflexivity|].
  unfold EraseIfFound.
  destruct (value_ n =? value); simpl.
  - destruct (negb (to_bool l) || negb (to_bool r)); simpl; [reflexivity|].
    destruct (FindMin r); reflexivity.
  - destruct (value_ n >? value); reflexivity.
Qed.

Lemma FindMin_not_null l n r : FindMin (Ptr l n r) <> nullptr.
Proof.
  revert n r. induction l as [|ll IH ln lr _]; intros n r; simpl.
  - discriminate.
  - apply (IH ln lr).
Qed.

(** ** Machine integers: no wrap-around in range *)

Lemma to_size_t_small z : 0 <= z < 2 ^ 64 -> to_size_t z = z.
Proof. intros H. unfold to_size_t. now apply Z.mod_small. Qed.

Lemma to_int_small z :
  - 2 ^ 31 <= z < 2 ^ 31 -> to_int (to_size_t z) = z.
Proof.
  intros H. unfold to_int, to_size_t. cbv zeta.
  assert (E : (z mod 2 ^ 64) mod 2 ^ 32 = z mod 2 ^ 32).
  { apply Z.mod_mod_divide. exists (2 ^ 32). reflexivity. }
  rewrite E.
  destruct (Z_lt_le_dec z 0) as [Hn|Hp].
  - assert (Em : z mod 2 ^ 32 = z + 2 ^ 32).
    { symmetry. apply (Z.mod_unique _ _ (-1)); lia. }
    rewrite Em.
    destruct (z + 2 ^ 32 <? 2 ^ 31) eqn:C; [apply Z.ltb_lt in C|]; lia.
  - rewrite Z.mod_small by lia.
    destruct (z <? 2 ^ 31) eqn:C; [|apply Z.ltb_ge in C]; lia.
Qed.

(** ** In-order sequences *)

Lemma inorder_Ptr l n r : inorder (Ptr l n r) = inorder l ++ n :: inorder r.
Proof. reflexivity. Qed.

Lemma entries_Ptr l n r :
  entries (Ptr l n r) = entries l ++ entry n :: entries r.
Proof. unfold entries. simpl. now rewrite map_app. Qed.

Lemma values_Ptr l n r :
  values (Ptr l n r) = values l ++ value_ n :: values r.
Proof. unfold values. simpl. now rewrite map_app. Qed.

Lemma values_entries p : values p = map fst (entries p).
Proof.
  unfold values, entries. rewrite map_map. reflexivity.
Qed.

Lemma length_entries p : length (entries p) = nodes p.
Proof.
  induction p as [|l IHl n r IHr]; [reflexivity|].
  rewrite entries_Ptr, length_app. simpl. lia.
Qed.

Lemma entries_nil p : entries p = [] -> p = nullptr.
Proof.
  destruct p as [|l n r]; [reflexivity|].
  rewrite entries_Ptr. intros H. now destruct (entries l).
Qed.

(** ** Rotations keep the in-order sequence *)

Section RotationFacts.

Variable cls : TreeClass.

Lemma entries_Renew node :
  entries (RenewNodesHeight cls node) = entries node.
Proof.
  destruct node as [|l n r]; [reflexivity|].
  unfold RenewNodesHeight. destruct cls; now rewrite !entries_Ptr.
Qed.

Lemma Renew_not_null node :
  node <> nullptr -> RenewNodesHeight cls node <> nullptr.
Proof.
  destruct node as [|l n r]; [congruence|].
  intros _. unfold RenewNodesHeight. destruct cls; discriminate.
Qed.

Lemma RotateRight_eq sl son T2 n r :
  RotateRight cls (Ptr (Ptr sl son T2) n r) =
  Some (RenewNodesHeight cls
          (Ptr sl son (RenewNodesHeight cls (Ptr T2 n r)))).
Proof. reflexivity. Qed.

Lemma RotateLeft_eq l n T2 son sr :
  RotateLeft cls (Ptr l n (Ptr T2 son sr)) =
  Some (RenewNodesHeight cls
          (Ptr (RenewNodesHeight cls (Ptr l n T2)) son sr)).
Proof. reflexivity. Qed.

Lemma entries_RotateRight node b :
  RotateRight cls node = Some b -> entries b = entries node.
Proof.
  destruct node as [|[|sl son T2] n r]; try discriminate.
  rewrite RotateRight_eq. intros H.
  apply (f_equal (fun o => match o with Some x => x | None => b end)) in H.
  subst b.
  rewrite entries_Renew, entries_Ptr, entries_Renew, !entries_Ptr.
  now rewrite <- app_assoc.
Qed.

Lemma entries_RotateLeft node b :
  RotateLeft cls node = Some b -> entries b = entries node.
Proof.
  destruct node as [|l n [|T2 son sr]]; try discriminate.
  rewrite RotateLeft_eq. intros H.
  apply (f_equal (fun o => match o with Some x => x | None => b end)) in H.
  subst b.
  rewrite entries_Renew, entries_Ptr, entries_Renew, !entries_Ptr.
  now rewrite <- app_assoc.
Qed.

Lemma entries_RightRotation node b :
  RightRotation cls node = Some b -> entries b = entries node.
Proof.
  destruct node as [|l n r]; [discriminate|].
  unfold RightRotation.
  destruct (HeightDiff l >=? 0).
  - apply entries_RotateRight.
  - destruct (RotateLeft cls l) as [l'|] eqn:E; [|discriminate].
    cbn [bind]. intros H. apply entries_RotateRight in H.
    apply entries_RotateLeft in E.
    now rewrite H, !entries_Ptr, E.
Qed.

Lemma entries_LeftRotation node b :
  LeftRotation cls node = Some b -> entries b = entries node.
Proof.
  destruct node as [|l n r]; [discriminate|].
  unfold LeftRotation.
  destruct (HeightDiff r <=? 0).
  - apply entries_RotateLeft.
  - destruct (RotateRight cls r) as [r'|] eqn:E; [|discriminate].
    cbn [bind]. intros H. apply entries_RotateLeft in H.
    apply entries_RotateRight in E.
    now rewrite H, !entries_Ptr, E.
Qed.

Lemma entries_BalanceNode node b :
  BalanceNode cls node = Some b -> entries b = entries node.
Proof.
  destruct node as [|l n r]; [intros H; now injection H as <-|].
  unfold BalanceNode.
  set (node := RenewNodesHeight cls (Ptr l n r)).
  assert (E : entries node = entries (Ptr l n r)) by apply entries_Renew.
  destruct (HeightDiff node <? -1).
  - intros H. apply entries_LeftRotation in H. congruence.
  - destruct (HeightDiff node >? 1).
    + intros H. apply entries_RightRotation in H. congruence.
    + intros H. injection H as <-. exact E.
Qed.

End RotationFacts.

Lemma entries_Balance cls node b :
  Balance cls node = Some b -> entries b = entries node.
Proof.
  unfold Balance. destruct cls.
  - intros H. now injection H as <-.
  - apply entries_BalanceNode.
  - apply entries_BalanceNode.
Qed.

Lemma Balance_not_null cls node b :
  Balance cls node = Some b -> node <> nullptr -> b <> nullptr.
Proof.
  intros H Hn Hb. subst b. apply entries_Balance in H.
  symmetry in H. apply entries_nil in H. contradiction.
Qed.

(** ** The order invariant *)

Lemma All_Forall P p : All P p <-> Forall P (values p).
Proof.
  induction p as [|l IHl n r IHr]; simpl.
  - split; [constructor | trivial].
  - rewrite values_Ptr, Forall_app, Forall_cons_iff. tauto.
Qed.

Lemma sorted_app l1 a l2 :
  sorted (l1 ++ a :: l2) <->
  sorted l1 /\ sorted l2 /\
  Forall (fun v => v < a) l1 /\ Forall (fun v => a < v) l2.
Proof.
  induction l1 as [|b l1 IH]; simpl.
  - intuition.
  - rewrite IH, Forall_app, !Forall_cons_iff. split.
    + intuition.
    + intros ((Hb & H1) & H2 & (Hba & Hl1) & Hl2). intuition.
      eapply Forall_impl; [|exact Hl2]. simpl. intros; lia.
Qed.

Lemma bst_sorted p : bst p <-> sorted (values p).
Proof.
  induction p as [|l IHl n r IHr]; simpl; [tauto|].
  rewrite values_Ptr, sorted_app, IHl, IHr, !All_Forall. tauto.
Qed.

(** ** Insertion and erasure on in-order sequences *)

Lemma ins_list_app_lt ms v L e R :
  v < fst e -> ins_list ms v (L ++ e :: R) = ins_list ms v L ++ e :: R.
Proof.
  intros Hlt. induction L as [|a L IH]; simpl.
  - destruct (Z.eqb_spec (fst e) v); [lia|].
    destruct (Z.gtb_spec (fst e) v); [reflexivity|lia].
  - destruct (fst a =? v); [reflexivity|].
    destruct (fst a >? v); [reflexivity|].
    now rewrite IH.
Qed.

Lemma ins_list_below ms v L R :
  Forall (fun x => fst x < v) L ->
  ins_list ms v (L ++ R) = L ++ ins_list ms v R.
Proof.
  induction 1 as [|a L Ha _ IH]; simpl; [reflexivity|].
  destruct (Z.eqb_spec (fst a) v); [lia|].
  destruct (Z.gtb_spec (fst a) v); [lia|].
  now rewrite IH.
Qed.

Lemma del_list_app v L R : del_list v (L ++ R) = del_list v L ++ del_list v R.
Proof. apply filter_app. Qed.

Lemma del_list_other v L :
  Forall (fun x => fst x <> v) L -> del_list v L = L.
Proof.
  induction 1 as [|a L Ha _ IH]; simpl; [reflexivity|].
  destruct (Z.eqb_spec (fst a) v); [contradiction|].
  simpl. now rewrite IH.
Qed.

Lemma sorted_ins_list ms v es :
  sorted (map fst es) -> sorted (map fst (ins_list ms v es)).
Proof.
  induction es as [|e es IH]; simpl.
  - intros _. split; [constructor|trivial].
  - intros [Hall Hs].
    destruct (Z.eqb_spec (fst e) v) as [E|N]; simpl; [tauto|].
    destruct (Z.gtb_spec (fst e) v) as [G|G]; simpl.
    + repeat split; trivial. constructor; [lia|].
      eapply Forall_impl; [|exact Hall]. simpl. intros; lia.
    + split; [|tauto].
      clear IH Hs. induction es as [|a es IH]; simpl.
      * constructor; [lia|constructor].
      * inversion Hall as [|? ? Ha Hes]; subst.
        destruct (fst a =? v); simpl; [constructor; assumption|].
        destruct (fst a >? v); simpl.
        -- constructor; [lia|]. constructor; assumption.
        -- constructor; [assumption|]. now apply IH.
Qed.

Lemma sorted_del_list v es :
  sorted (map fst es) -> sorted (map fst (del_list v es)).
Proof.
  induction es as [|e es IH]; simpl; [trivial|].
  intros [Hall Hs]. destruct (negb (fst e =? v)); simpl; [|tauto].
  split; [|tauto].
  clear IH Hs. induction es as [|a es IH]; simpl; [constructor|].
  inversion Hall; subst.
  destruct (negb (fst a =? v)); simpl; [constructor|]; tauto.
Qed.

Lemma Forall_entries_values (P : Z -> Prop) p :
  Forall P (values p) <-> Forall (fun x => P (fst x)) (entries p).
Proof.
  rewrite values_entries, Forall_map. reflexivity.
Qed.

(** ** What the recursive functions do to the in-order sequence *)

Lemma entry_InsertIfFound ms n : entry (InsertIfFound ms n) = bump ms (entry n).
Proof. unfold InsertIfFound, bump, entry. now destruct ms. Qed.

Lemma InsertRecursive_entries cls ms v node s b s' :
  bst node ->
  InsertRecursive cls ms v node s = Some (b, s') ->
  entries b = ins_list ms v (entries node).
Proof.
  revert s b s'.
  induction node as [|l IHl n r IHr]; intros s b s' Hbst H.
  - simpl in H. injection H as <- _. reflexivity.
  - simpl in Hbst. destruct Hbst as (Hl & Hr & Hlt & Hgt).
    apply All_Forall, Forall_entries_values in Hlt.
    simpl in H. rewrite entries_Ptr.
    destruct (Z.eqb_spec (value_ n) v) as [E|N].
    + bind_inv H. injection H as <- _.
      apply entries_Balance in E0. rewrite E0, entries_Ptr.
      rewrite ins_list_below.
      * rewrite entry_InsertIfFound. cbn [ins_list].
        change (fst (entry n)) with (value_ n).
        rewrite E, Z.eqb_refl. reflexivity.
      * eapply Forall_impl; [|exact Hlt]. simpl. intros; lia.
    + destruct (Z.gtb_spec (value_ n) v) as [G|G].
      * bind_inv H. destruct p as [l' sz]. cbn beta iota in H.
        bind_inv H. injection H as <- _.
        apply entries_Balance in E0. rewrite E0, entries_Ptr.
        rewrite (IHl _ _ _ Hl E), ins_list_app_lt; [reflexivity|].
        simpl. lia.
      * bind_inv H. destruct p as [r' sz]. cbn beta iota in H.
        bind_inv H. injection H as <- _.
        apply entries_Balance in E0. rewrite E0, entries_Ptr.
        rewrite (IHr _ _ _ Hr E).
        rewrite (ins_list_below ms v (entries l) (entry n :: entries r)).
        -- simpl. destruct (Z.eqb_spec (value_ n) v); [contradiction|].
           destruct (Z.gtb_spec (value_ n) v); [lia|reflexivity].
        -- eapply Forall_impl; [|exact Hlt]. simpl. intros; lia.
Qed.

(** [size_] grows exactly when the value was not found. *)
Lemma InsertRecursive_size cls ms v node s b s' :
  InsertRecursive cls ms v node s = Some (b, s') ->
  s' = if to_bool (FindRecursive v node) then s else to_size_t (s + 1).
Proof.
  revert s b s'.
  induction node as [|l IHl n r IHr]; intros s b s' H; simpl in *.
  - now injection H as _ <-.
  - destruct (value_ n =? v).
    + bind_inv H. now injection H as _ <-.
    + destruct (value_ n >? v).
      * bind_inv H. destruct p as [l' sz]. cbn beta iota in H.
        bind_inv H. injection H as _ <-. eauto.
      * bind_inv H. destruct p as [r' sz]. cbn beta iota in H.
        bind_inv H. injection H as _ <-. eauto.
Qed.

Lemma InsertRecursive_not_null cls ms v node s b s' :
  InsertRecursive cls ms v node s = Some (b, s') -> b <> nullptr.
Proof.
  destruct node as [|l n r]; simpl; intros H.
  - injection H as <- _. discriminate.
  - destruct (value_ n =? v); [|destruct (value_ n >? v)].
    + bind_inv H. injection H as <- _.
      eapply Balance_not_null; [eassumption|discriminate].
    + bind_inv H. destruct p as [l' sz]. cbn beta iota in H.
      bind_inv H. injection H as <- _.
      eapply Balance_not_null; [eassumption|discriminate].
    + bind_inv H. destruct p as [r' sz]. cbn beta iota in H.
      bind_inv H. injection H as <- _.
      eapply Balance_not_null; [eassumption|discriminate].
Qed.

(** The leftmost node is the head of the in-order sequence. *)
Lemma FindMin_head r x c y :
  FindMin r = Ptr x c y ->
  exists tl, inorder r = c :: tl /\
             forall m, inorder (StoreMin m r) = m :: tl.
Proof.
  induction r as [|l IHl n r' _]; [discriminate|].
  destruct l as [|ll ln lr].
  - simpl. intros [= <- <- <-]. exists (inorder r'). split; reflexivity.
  - intros H. change (FindMin (Ptr ll ln lr) = Ptr x c y) in H.
    destruct (IHl H) as (tl & E1 & E2).
    exists (tl ++ n :: inorder r'). split.
    + rewrite inorder_Ptr, E1. reflexivity.
    + intros m.
      change (StoreMin m (Ptr (Ptr ll ln lr) n r'))
        with (Ptr (StoreMin m (Ptr ll ln lr)) n r').
      rewrite inorder_Ptr, E2. reflexivity.
Qed.

Lemma EraseRecursive_entries v node :
  bst node -> entries (EraseRecursive v node) = del_list v (entries node).
Proof.
  remember (nodes node) as k eqn:Hk. revert node Hk.
  induction k as [k IH] using lt_wf_ind. intros node Hk Hbst.
  rewrite EraseRecursive_body.
  destruct node as [|l n r]; [reflexivity|].
  simpl in Hbst. destruct Hbst as (Hl & Hr & Hlt & Hgt).
  apply All_Forall, Forall_entries_values in Hlt.
  apply All_Forall, Forall_entries_values in Hgt.
  simpl in Hk.
  rewrite entries_Ptr, del_list_app. simpl.
  destruct (Z.eqb_spec (value_ n) v) as [E|N]; simpl.
  - (* found *)
    assert (Dl : del_list v (entries l) = entries l).
    { apply del_list_other. eapply Forall_impl; [|exact Hlt].
      simpl. intros; lia. }
    assert (Dr : del_list v (entries r) = entries r).
    { apply del_list_other. eapply Forall_impl; [|exact Hgt].
      simpl. intros; lia. }
    rewrite Dl, Dr.
    destruct l as [|ll ln lr]; [reflexivity|].
    destruct r as [|rl rn rr]; [simpl; now rewrite app_nil_r|].
    cbn [to_bool negb orb].
    destruct (FindMin (Ptr rl rn rr)) as [|x c y] eqn:Hmin.
    { now apply FindMin_not_null in Hmin. }
    destruct (FindMin_head _ _ _ _ Hmin) as (tl & E1 & E2).
    unfold SwapNodesValue. cbn [value_].
    set (c' := mkNode (value_ n) (cnt_ n) (height_ c) (subtree_size_ c)).
    set (r1 := StoreMin c' (Ptr rl rn rr)).
    assert (Er : entries (Ptr rl rn rr) = entry c :: map entry tl).
    { unfold entries. now rewrite E1. }
    assert (Er1 : entries r1 = (value_ n, cnt_ n) :: map entry tl).
    { unfold entries, r1. now rewrite E2. }
    rewrite Er in Hgt. inversion Hgt as [|? ? Hc Htl]; subst.
    assert (Hb1 : bst r1).
    { apply bst_sorted. rewrite values_entries, Er1. simpl. split.
      - rewrite Forall_map. exact Htl.
      - apply bst_sorted in Hr. rewrite values_entries, Er in Hr.
        apply Hr. }
    rewrite entries_Ptr.
    rewrite (IH (nodes r1)); [| |reflexivity|exact Hb1].
    + rewrite Er1, Er.
      assert (Dtl : del_list (value_ n) (map entry tl) = map entry tl).
      { apply del_list_other. eapply Forall_impl; [|exact Htl].
        simpl. intros; lia. }
      unfold del_list in *. simpl. rewrite Z.eqb_refl. simpl.
      rewrite Dtl. reflexivity.
    + unfold r1. rewrite nodes_StoreMin. lia.
  - destruct (Z.gtb_spec (value_ n) v) as [G|G].
    + rewrite entries_Ptr.
      rewrite (IH (nodes l)); [|lia|reflexivity|exact Hl].
      rewrite (del_list_other v (entries r)); [reflexivity|].
      eapply Forall_impl; [|exact Hgt]. simpl. intros; lia.
    + rewrite entries_Ptr.
      rewrite (IH (nodes r)); [|lia|reflexivity|exact Hr].
      rewrite (del_list_other v (entries l)); [reflexivity|].
      eapply Forall_impl; [|exact Hlt]. simpl. intros; lia.
Qed.

(** ** Consequences for the order invariant *)

Lemma bst_InsertRecursive cls ms v node s b s' :
  bst node -> InsertRecursive cls ms v node s = Some (b, s') -> bst b.
Proof.
  intros Hb H. apply bst_sorted.
  rewrite values_entries, (InsertRecursive_entries _ _ _ _ _ _ _ Hb H).
  apply sorted_ins_list. rewrite <- values_entries. now apply bst_sorted.
Qed.

Lemma bst_EraseRecursive v node : bst node -> bst (EraseRecursive v node).
Proof.
  intros Hb. apply bst_sorted.
  rewrite values_entries, (EraseRecursive_entries _ _ Hb).
  apply sorted_del_list. rewrite <- values_entries. now apply bst_sorted.
Qed.

(** ** The public operations, when they return *)

Lemma Insert_Some cls ms v t t' :
  Insert cls ms v t = Some t' ->
  InsertRecursive cls ms v (root_ t) (size_ t) = Some (root_ t', size_ t').
Proof.
  unfold Insert. intros H. bind_inv H. destruct p as [root size].
  cbn beta iota in H. destruct root; [discriminate|].
  now injection H as <-.
Qed.

Lemma Erase_Some v t t' :
  Erase v t = Some t' ->
  root_ t' = EraseRecursive v (root_ t) /\ size_ t' = size_ t.
Proof.
  unfold Erase. intros H.
  destruct (EraseRecursive v (root_ t)); [discriminate|].
  injection H as <-. split; reflexivity.
Qed.

Lemma Erase_None v t :
  Erase v t = None <-> EraseRecursive v (root_ t) = nullptr.
Proof.
  unfold Erase. destruct (EraseRecursive v (root_ t)); split; congruence.
Qed.

Lemma step_entries cls ms o t t' :
  bst (root_ t) -> step cls ms o t = Some t' ->
  bst (root_ t') /\
  entries (root_ t') = step_list ms o (entries (root_ t)).
Proof.
  intros Hb H. destruct o as [v|v]; simpl in H.
  - apply Insert_Some in H. split.
    + eapply bst_InsertRecursive; eassumption.
    + eapply InsertRecursive_entries; eassumption.
  - apply Erase_Some in H. destruct H as [-> _]. split.
    + now apply bst_EraseRecursive.
    + now apply EraseRecursive_entries.
Qed.

Lemma run_cons cls ms o ops t t'' :
  run cls ms (o :: ops) t = Some t'' ->
  exists t', step cls ms o t = Some t' /\ run cls ms ops t' = Some t''.
Proof.
  simpl. intros H. bind_inv H. eauto.
Qed.

(** ** Occurrence counts in set mode *)

Lemma counts_one_entries p :
  counts_one p <-> Forall (fun e => snd e = 1) (entries p).
Proof. unfold counts_one, entries. now rewrite Forall_map. Qed.

Lemma ins_list_set_ones v es :
  Forall (fun e => snd e = 1) es ->
  Forall (fun e => snd e = 1) (ins_list false v es).
Proof.
  induction 1 as [|e es He Hes IH]; simpl.
  - constructor; [reflexivity|constructor].
  - destruct (fst e =? v); [|destruct (fst e >? v)].
    + constructor; assumption.
    + repeat constructor; assumption.
    + constructor; assumption.
Qed.

Lemma del_list_ones v es :
  Forall (fun e => snd e = 1) es ->
  Forall (fun e => snd e = 1) (del_list v es).
Proof.
  intros H. apply Forall_forall. intros e He.
  apply filter_In in He. rewrite Forall_forall in H. now apply H.
Qed.

(** ** Search *)

Lemma EraseRecursive_absent v node :
  FindRecursive v node = nullptr -> EraseRecursive v node = node.
Proof.
  induction node as [|l IHl n r IHr]; intros H;
    rewrite EraseRecursive_body; [reflexivity|].
  simpl in H.
  destruct (value_ n =? v); [discriminate|].
  destruct (value_ n >? v).
  - now rewrite IHl.
  - now rewrite IHr.
Qed.

Lemma FindRecursive_In v node :
  bst node -> (to_bool (FindRecursive v node) = true <-> In v (values node)).
Proof.
  induction node as [|l IHl n r IHr]; simpl.
  - intros _. split; [discriminate|contradiction].
  - intros (Hl & Hr & Hlt & Hgt).
    apply All_Forall in Hlt, Hgt. rewrite Forall_forall in Hlt, Hgt.
    rewrite values_Ptr, in_app_iff. simpl.
    destruct (Z.eqb_spec (value_ n) v) as [E|N].
    + simpl. tauto.
    + destruct (Z.gtb_spec (value_ n) v) as [G|G].
      * rewrite (IHl Hl). split; [tauto|].
        intros [H|[H|H]]; [assumption|contradiction|].
        apply Hgt in H. lia.
      * rewrite (IHr Hr). split; [tauto|].
        intros [H|[H|H]]; [|contradiction|assumption].
        apply Hlt in H. lia.
Qed.

(** ** [Next] and [Prev] *)

Lemma least_above_ext x V V' res :
  (forall w, In w V -> In w V') ->
  (forall w, In w V' -> x < w -> exists w', In w' V /\ x < w' /\ w' <= w) ->
  least_above x V res -> least_above x V' res.
Proof.
  intros Hin Hdom. destruct res as [|a m b]; simpl.
  - intros H w Hw. destruct (Z_lt_le_dec x w) as [Hlt|]; [|assumption].
    destruct (Hdom w Hw Hlt) as (w' & Hw' & Hx & _).
    apply H in Hw'. lia.
  - intros (H1 & H2 & H3). repeat split; auto.
    intros w Hw Hlt. destruct (Hdom w Hw Hlt) as (w' & Hw' & Hx & Hle).
    specialize (H3 w' Hw' Hx). lia.
Qed.

Lemma greatest_below_ext x V V' res :
  (forall w, In w V -> In w V') ->
  (forall w, In w V' -> w < x -> exists w', In w' V /\ w' < x /\ w <= w') ->
  greatest_below x V res -> greatest_below x V' res.
Proof.
  intros Hin Hdom. destruct res as [|a m b]; simpl.
  - intros H w Hw. destruct (Z_lt_le_dec w x) as [Hlt|]; [|assumption].
    destruct (Hdom w Hw Hlt) as (w' & Hw' & Hx & _).
    apply H in Hw'. lia.
  - intros (H1 & H2 & H3). repeat split; auto.
    intros w Hw Hlt. destruct (Hdom w Hw Hlt) as (w' & Hw' & Hx & Hle).
    specialize (H3 w' Hw' Hx). lia.
Qed.

Lemma NextLoop_spec x cur :
  forall next,
    bst cur -> Forall (fun w => x < w) (cand next) ->
    least_above x (values cur ++ cand next) (NextLoop x cur next).
Proof.
  induction cur as [|l IHl n r IHr]; intros next Hb Hn.
  - simpl. destruct next as [|a m b]; simpl in *.
    + contradiction.
    + inversion Hn; subst. intuition lia.
  - simpl in Hb. destruct Hb as (Hl & Hr & Hlt & Hgt).
    apply All_Forall in Hlt, Hgt. rewrite Forall_forall in Hlt, Hgt.
    simpl NextLoop.
    destruct (Z.gtb_spec (value_ n) x) as [G|G].
    + set (next' := match next with
                    | nullptr => Ptr l n r
                    | Ptr _ m _ =>
                        if value_ n <? value_ m then Ptr l n r else next
                    end).
      assert (Hc : exists c, cand next' = [c] /\ x < c /\ c <= value_ n /\
                   (c = value_ n \/ In c (cand next)) /\
                   forall w, In w (cand next) -> c <= w).
      { unfold next'. destruct next as [|a m b].
        - exists (value_ n). simpl. intuition lia.
        - inversion Hn; subst.
          destruct (Z.ltb_spec (value_ n) (value_ m)).
          + exists (value_ n). simpl. intuition lia.
          + exists (value_ m). simpl. intuition lia. }
      destruct Hc as (c & Ec & Hxc & Hcn & Hcin & Hcmin).
      assert (Hn' : Forall (fun w => x < w) (cand next')).
      { rewrite Ec. constructor; [assumption|constructor]. }
      specialize (IHl next' Hl Hn').
      eapply least_above_ext; [| |exact IHl].
      * intros w. rewrite Ec, values_Ptr, !in_app_iff. simpl.
        intros [H|[H|[]]]; [tauto|]. subst w. destruct Hcin; [subst|]; tauto.
      * intros w. rewrite values_Ptr, !in_app_iff. simpl.
        intros [[H|[H|H]]|H] Hxw.
        -- exists w. rewrite in_app_iff. intuition lia.
        -- exists c. rewrite Ec, in_app_iff. simpl. intuition lia.
        -- exists c. rewrite Ec, in_app_iff. simpl.
           apply Hgt in H. intuition lia.
        -- exists c. rewrite Ec, in_app_iff. simpl.
           apply Hcmin in H. intuition lia.
    + specialize (IHr next Hr Hn).
      eapply least_above_ext; [| |exact IHr].
      * intros w. rewrite values_Ptr, !in_app_iff. simpl. tauto.
      * intros w. rewrite values_Ptr, !in_app_iff. simpl.
        intros [[H|[H|H]]|H] Hxw.
        -- apply Hlt in H. lia.
        -- lia.
        -- exists w. rewrite in_app_iff. intuition lia.
        -- exists w. rewrite in_app_iff. intuition lia.
Qed.

Lemma PrevLoop_spec x cur :
  forall prev,
    bst cur -> Forall (fun w => w < x) (cand prev) ->
    greatest_below x (values cur ++ cand prev) (PrevLoop x cur prev).
Proof.
  induction cur as [|l IHl n r IHr]; intros prev Hb Hn.
  - simpl. destruct prev as [|a m b]; simpl in *.
    + contradiction.
    + inversion Hn; subst. intuition lia.
  - simpl in Hb. destruct Hb as (Hl & Hr & Hlt & Hgt).
    apply All_Forall in Hlt, Hgt. rewrite Forall_forall in Hlt, Hgt.
    simpl PrevLoop.
    destruct (Z.ltb_spec (value_ n) x) as [G|G].
    + set (prev' := match prev with
                    | nullptr => Ptr l n r
                    | Ptr _ m _ =>
                        if value_ n >? value_ m then Ptr l n r else prev
                    end).
      assert (Hc : exists c, cand prev' = [c] /\ c < x /\ value_ n <= c /\
                   (c = value_ n \/ In c (cand prev)) /\
                   forall w, In w (cand prev) -> w <= c).
      { unfold prev'. destruct prev as [|a m b].
        - exists (value_ n). simpl. intuition lia.
        - inversion Hn; subst.
          destruct (Z.gtb_spec (value_ n) (value_ m)).
          + exists (value_ n). simpl. intuition lia.
          + exists (value_ m). simpl. intuition lia. }
      destruct Hc as (c & Ec & Hxc & Hcn & Hcin & Hcmin).
      assert (Hn' : Forall (fun w => w < x) (cand prev')).
      { rewrite Ec. constructor; [assumption|constructor]. }
      specialize (IHr prev' Hr Hn').
      eapply greatest_below_ext; [| |exact IHr].
      * intros w. rewrite Ec, values_Ptr, !in_app_iff. simpl.
        intros [H|[H|[]]]; [tauto|]. subst w. destruct Hcin; [subst|]; tauto.
      * intros w. rewrite values_Ptr, !in_app_iff. simpl.
        intros [[H|[H|H]]|H] Hxw.
        -- exists c. rewrite Ec, in_app_iff. simpl.
           apply Hlt in H. intuition lia.
        -- exists c. rewrite Ec, in_app_iff. simpl. intuition lia.
        -- exists w. rewrite in_app_iff. intuition lia.
        -- exists c. rewrite Ec, in_app_iff. simpl.
           apply Hcmin in H. intuition lia.
    + specialize (IHl prev Hl Hn).
      eapply greatest_below_ext; [| |exact IHl].
      * intros w. rewrite values_Ptr, !in_app_iff. simpl. tauto.
      * intros w. rewrite values_Ptr, !in_app_iff. simpl.
        intros [[H|[H|H]]|H] Hxw.
        -- exists w. rewrite in_app_iff. intuition lia.
        -- lia.
        -- apply Hgt in H. lia.
        -- exists w. rewrite in_app_iff. intuition lia.
Qed.

(** ** When the rebalancing hook returns *)

Lemma heights_ok_nonneg p : heights_ok p -> 0 <= NodeHeight p.
Proof.
  induction p as [|l IHl n r IHr]; simpl; [lia|].
  intros (Hl & Hr & H). specialize (IHl Hl). lia.
Qed.

Lemma HeightDiff_exact l n r :
  0 <= NodeHeight l < 2 ^ 31 -> 0 <= NodeHeight r < 2 ^ 31 ->
  HeightDiff (Ptr l n r) = NodeHeight l - NodeHeight r.
Proof.
  intros Hl Hr. unfold HeightDiff. apply to_int_small. lia.
Qed.

Section Sanity.

Variable cls : TreeClass.

Lemma Renew_spec l n r :
  heights_ok l -> heights_ok r ->
  NodeHeight l < 2 ^ 63 -> NodeHeight r < 2 ^ 63 ->
  exists n',
    RenewNodesHeight cls (Ptr l n r) = Ptr l n' r /\
    height_ n' = Z.max (NodeHeight l) (NodeHeight r) + 1 /\
    heights_ok (Ptr l n' r).
Proof.
  intros Hl Hr Bl Br.
  pose proof (heights_ok_nonneg _ Hl). pose proof (heights_ok_nonneg _ Hr).
  assert (E : to_size_t (Z.max (NodeHeight r) (NodeHeight l) + 1) =
              Z.max (NodeHeight l) (NodeHeight r) + 1).
  { rewrite to_size_t_small; lia. }
  unfold RenewNodesHeight. rewrite E.
  destruct cls; eexists; (split; [reflexivity|]); simpl; (split; [reflexivity|]);
    repeat split; trivial; lia.
Qed.

Lemma BalanceNode_sane l n r :
  heights_ok l -> heights_ok r ->
  NodeHeight l < INT_MAX -> NodeHeight r < INT_MAX ->
  exists b,
    BalanceNode cls (Ptr l n r) = Some b /\ heights_ok b /\
    NodeHeight b <= Z.max (NodeHeight l) (NodeHeight r) + 1.
Proof.
  unfold INT_MAX. intros Hl Hr Bl Br.
  pose proof (heights_ok_nonneg _ Hl) as Pl.
  pose proof (heights_ok_nonneg _ Hr) as Pr.
  unfold BalanceNode.
  destruct (Renew_spec l n r Hl Hr) as (n1 & E1 & Hh1 & Ok1); [lia|lia|].
  rewrite E1, HeightDiff_exact by lia.
  destruct (Z.ltb_spec (NodeHeight l - NodeHeight r) (-1)) as [C|C].
  - (* the right side is too high *)
    destruct r as [|rl rn rr]; [simpl in *; lia|].
    simpl in Hr. destruct Hr as (Hrl & Hrr & Hrn).
    pose proof (heights_ok_nonneg _ Hrl). pose proof (heights_ok_nonneg _ Hrr).
    simpl NodeHeight in *.
    unfold LeftRotation. rewrite HeightDiff_exact by lia.
    destruct (Z.leb_spec (NodeHeight rl - NodeHeight rr) 0) as [D|D].
    + rewrite RotateLeft_eq.
      destruct (Renew_spec l n1 rl Hl Hrl) as (n2 & E2 & Hh2 & Ok2); [lia|lia|].
      rewrite E2.
      destruct (Renew_spec (Ptr l n2 rl) rn rr Ok2 Hrr) as (n3 & E3 & Hh3 & Ok3);
        [simpl; lia|lia|].
      rewrite E3. eexists. split; [reflexivity|]. split; [exact Ok3|].
      simpl in *. lia.
    + destruct rl as [|rll rln rlr]; [simpl in *; lia|].
      simpl in Hrl. destruct Hrl as (Hrll & Hrlr & Hrln).
      pose proof (heights_ok_nonneg _ Hrll).
      pose proof (heights_ok_nonneg _ Hrlr).
      simpl NodeHeight in *.
      rewrite RotateRight_eq. cbn [bind].
      destruct (Renew_spec rlr rn rr Hrlr Hrr) as (n2 & E2 & Hh2 & Ok2);
        [lia|lia|].
      rewrite E2.
      destruct (Renew_spec rll rln (Ptr rlr n2 rr) Hrll Ok2)
        as (n3 & E3 & Hh3 & Ok3); [lia|simpl; lia|].
      rewrite E3, RotateLeft_eq.
      destruct (Renew_spec l n1 rll Hl Hrll) as (n4 & E4 & Hh4 & Ok4);
        [lia|lia|].
      rewrite E4.
      destruct (Renew_spec (Ptr l n4 rll) n3 (Ptr rlr n2 rr) Ok4 Ok2)
        as (n5 & E5 & Hh5 & Ok5); [simpl; lia|simpl; lia|].
      rewrite E5. eexists. split; [reflexivity|]. split; [exact Ok5|].
      simpl in *. lia.
  - destruct (Z.gtb_spec (NodeHeight l - NodeHeight r) 1) as [C'|C'].
    + (* the left side is too high *)
      destruct l as [|ll ln lr]; [simpl in *; lia|].
      simpl in Hl. destruct Hl as (Hll & Hlr & Hln).
      pose proof (heights_ok_nonneg _ Hll).
      pose proof (heights_ok_nonneg _ Hlr).
      simpl NodeHeight in *.
      unfold RightRotation. rewrite HeightDiff_exact by lia.
      destruct (Z.geb_spec (NodeHeight ll - NodeHeight lr) 0) as [D|D].
      * rewrite RotateRight_eq.
        destruct (Renew_spec lr n1 r Hlr Hr) as (n2 & E2 & Hh2 & Ok2);
          [lia|lia|].
        rewrite E2.
        destruct (Renew_spec ll ln (Ptr lr n2 r) Hll Ok2)
          as (n3 & E3 & Hh3 & Ok3); [lia|simpl; lia|].
        rewrite E3. eexists. split; [reflexivity|]. split; [exact Ok3|].
        simpl in *. lia.
      * destruct lr as [|lrl lrn lrr]; [simpl in *; lia|].
        simpl in Hlr. destruct Hlr as (Hlrl & Hlrr & Hlrn).
        pose proof (heights_ok_nonneg _ Hlrl).
        pose proof (heights_ok_nonneg _ Hlrr).
        simpl NodeHeight in *.
        rewrite RotateLeft_eq. cbn [bind].
        destruct (Renew_spec ll ln lrl Hll Hlrl) as (n2 & E2 & Hh2 & Ok2);
          [lia|lia|].
        rewrite E2.
        destruct (Renew_spec (Ptr ll n2 lrl) lrn lrr Ok2 Hlrr)
          as (n3 & E3 & Hh3 & Ok3); [simpl; lia|lia|].
        rewrite E3, RotateRight_eq.
        destruct (Renew_spec lrr n1 r Hlrr Hr) as (n4 & E4 & Hh4 & Ok4);
          [lia|lia|].
        rewrite E4.
        destruct (Renew_spec (Ptr ll n2 lrl) n3 (Ptr lrr n4 r) Ok2 Ok4)
          as (n5 & E5 & Hh5 & Ok5); [simpl; lia|simpl; lia|].
        rewrite E5. eexists. split; [reflexivity|]. split; [exact Ok5|].
        simpl in *. lia.
    + eexists. split; [reflexivity|]. split; [exact Ok1|]. simpl. lia.
Qed.

End Sanity.

Lemma Balance_BalanceNode cls node :
  cls <> TSearchTree -> Balance cls node = BalanceNode cls node.
Proof. destruct cls; [congruence|reflexivity|reflexivity]. Qed.

Lemma InsertRecursive_sane cls ms v node s :
  cls <> TSearchTree -> heights_ok node -> NodeHeight node < INT_MAX ->
  exists b s',
    InsertRecursive cls ms v node s = Some (b, s') /\
    heights_ok b /\ NodeHeight b <= NodeHeight node + 1.
Proof.
  intros Hcls. revert s.
  induction node as [|l IHl n r IHr]; intros s Hok Hb.
  - simpl. do 2 eexists. split; [reflexivity|]. simpl. repeat split; lia.
  - simpl in Hok, Hb. destruct Hok as (Hl & Hr & Hn).
    pose proof (heights_ok_nonneg _ Hl). pose proof (heights_ok_nonneg _ Hr).
    simpl InsertRecursive. rewrite !Balance_BalanceNode by assumption.
    destruct (value_ n =? v); [|destruct (value_ n >? v)].
    + destruct (BalanceNode_sane cls l (InsertIfFound ms n) r Hl Hr)
        as (b & E & Ok & Hh); [lia|lia|].
      rewrite E. cbn [bind]. do 2 eexists. split; [reflexivity|].
      split; [assumption|]. simpl. lia.
    + destruct (IHl s Hl) as (l' & s' & E & Okl & Hhl); [lia|].
      rewrite E. cbn [bind]. rewrite Balance_BalanceNode by assumption.
      destruct (BalanceNode_sane cls l' n r Okl Hr) as (b & Eb & Ok & Hh);
        [lia|lia|].
      rewrite Eb. cbn [bind]. do 2 eexists. split; [reflexivity|].
      split; [assumption|]. simpl. lia.
    + destruct (IHr s Hr) as (r' & s' & E & Okr & Hhr); [lia|].
      rewrite E. cbn [bind]. rewrite Balance_BalanceNode by assumption.
      destruct (BalanceNode_sane cls l n r' Hl Okr) as (b & Eb & Ok & Hh);
        [lia|lia|].
      rewrite Eb. cbn [bind]. do 2 eexists. split; [reflexivity|].
      split; [assumption|]. simpl. lia.
Qed.

Lemma InsertRecursive_base ms v node s :
  exists b s', InsertRecursive TSearchTree ms v node s = Some (b, s').
Proof.
  revert s. induction node as [|l IHl n r IHr]; intros s; simpl.
  - eauto.
  - destruct (value_ n =? v); [|destruct (value_ n >? v)].
    + eauto.
    + destruct (IHl s) as (l' & s' & ->). simpl. eauto.
    + destruct (IHr s) as (r' & s' & ->). simpl. eauto.
Qed.

(** [Insert] returns in every sane state. *)
Lemma Insert_returns cls ms v t :
  sane cls (root_ t) -> exists t', Insert cls ms v t = Some t'.
Proof.
  intros Hs. unfold Insert.
  assert (H : exists b s',
             InsertRecursive cls ms v (root_ t) (size_ t) = Some (b, s')).
  { destruct cls.
    - apply InsertRecursive_base.
    - destruct Hs as [Ok Hb].
      destruct (InsertRecursive_sane TAvlTree ms v _ (size_ t)
                  ltac:(discriminate) Ok Hb) as (b & s' & E & _). eauto.
    - destruct Hs as [Ok Hb].
      destruct (InsertRecursive_sane TAvlTreeWithSize ms v _ (size_ t)
                  ltac:(discriminate) Ok Hb) as (b & s' & E & _). eauto. }
  destruct H as (b & s' & E). rewrite E. cbn [bind].
  apply InsertRecursive_not_null in E.
  destruct b; [congruence|eauto].
Qed.

(** Stored heights along [Erase]. *)
Lemma StoreMin_heights m r x c y :
  FindMin r = Ptr x c y -> height_ m = height_ c -> heights_ok r ->
  heights_ok (StoreMin m r) /\ NodeHeight (StoreMin m r) = NodeHeight r.
Proof.
  intros Hmin Hm. induction r as [|l IHl n r' _]; [discriminate|].
  destruct l as [|ll ln lr].
  - simpl in Hmin. injection Hmin as <- <- <-. simpl. rewrite Hm. tauto.
  - change (FindMin (Ptr ll ln lr) = Ptr x c y) in Hmin.
    change (StoreMin m (Ptr (Ptr ll ln lr) n r'))
      with (Ptr (StoreMin m (Ptr ll ln lr)) n r').
    intros (Hl & Hr & Hn). destruct (IHl Hmin Hl) as [Ok E].
    cbn [heights_ok NodeHeight]. rewrite E. tauto.
Qed.

Lemma heights_EraseRecursive v node :
  heights_ok node ->
  heights_ok (EraseRecursive v node) /\
  NodeHeight (EraseRecursive v node) <= NodeHeight node.
Proof.
  remember (nodes node) as k eqn:Hk. revert v node Hk.
  induction k as [k IH] using lt_wf_ind. intros v node Hk Hok.
  rewrite EraseRecursive_body.
  destruct node as [|l n r]; [simpl; split; [trivial|lia]|].
  simpl in Hk. pose proof Hok as Hok'.
  simpl in Hok. destruct Hok as (Hl & Hr & Hn).
  pose proof (heights_ok_nonneg _ Hl). pose proof (heights_ok_nonneg _ Hr).
  destruct (value_ n =? v).
  - unfold EraseIfFound.
    destruct l as [|ll ln lr]; [simpl in *; split; [assumption|lia]|].
    destruct r as [|rl rn rr]; [simpl in *; split; [assumption|lia]|].
    cbn [to_bool negb orb].
    destruct (FindMin (Ptr rl rn rr)) as [|x c y] eqn:Hmin.
    { split; [assumption|lia]. }
    unfold SwapNodesValue. cbn [value_].
    set (c' := mkNode (value_ n) (cnt_ n) (height_ c) (subtree_size_ c)).
    destruct (StoreMin_heights c' _ _ _ _ Hmin eq_refl Hr) as [Ok1 E1].
    destruct (IH (nodes (StoreMin c' (Ptr rl rn rr)))
                 ltac:(rewrite nodes_StoreMin; lia)
                 (value_ n) _ eq_refl Ok1) as [Ok2 E2].
    cbn [heights_ok NodeHeight height_] in *. repeat split; try tauto; lia.
  - destruct (value_ n >? v).
    + destruct (IH (nodes l) ltac:(lia) v l eq_refl Hl) as [Ok E].
      cbn [heights_ok NodeHeight]. repeat split; trivial; lia.
    + destruct (IH (nodes r) ltac:(lia) v r eq_refl Hr) as [Ok E].
      cbn [heights_ok NodeHeight]. repeat split; trivial; lia.
Qed.

(** Every sequence of fewer than [INT_MAX] calls keeps the tree sane. *)
Lemma run_sane cls ms ops t t' :
  cls <> TSearchTree -> heights_ok (root_ t) ->
  NodeHeight (root_ t) + Z.of_nat (length ops) <= INT_MAX ->
  run cls ms ops t = Some t' ->
  heights_ok (root_ t') /\
  NodeHeight (root_ t') <= NodeHeight (root_ t) + Z.of_nat (length ops).
Proof.
  intros Hcls. revert t.
  induction ops as [|o ops IH]; intros t Hok Hb H.
  - simpl in H. injection H as <-. simpl. split; [assumption|lia].
  - apply run_cons in H. destruct H as (t1 & H1 & H2).
    cbn [length] in Hb. rewrite Nat2Z.inj_succ in Hb.
    assert (S1 : heights_ok (root_ t1) /\
                 NodeHeight (root_ t1) <= NodeHeight (root_ t) + 1).
    { destruct o as [v|v]; simpl in H1.
      - apply Insert_Some in H1.
        destruct (InsertRecursive_sane cls ms v (root_ t) (size_ t) Hcls Hok)
          as (b & s' & E & Ok & Hh); [lia|].
        rewrite E in H1. injection H1 as <- _. tauto.
      - apply Erase_Some in H1. destruct H1 as [-> _].
        destruct (heights_EraseRecursive v _ Hok). split; [assumption|lia]. }
    destruct S1 as [Ok1 Hh1].
    destruct (IH t1 Ok1 ltac:(lia) H2) as [Ok' Hh'].
    split; [assumption|].
    cbn [length]. rewrite Nat2Z.inj_succ. lia.
Qed.

(** The states the drivers can reach in fewer than [INT_MAX] calls are
    sane. *)
Lemma reachable_sane cls ms ops t :
  Z.of_nat (length ops) <= INT_MAX - 1 ->
  run cls ms ops empty_tree = Some t -> sane cls (root_ t).
Proof.
  intros Hlen H.
  assert (G : cls <> TSearchTree ->
              heights_ok (root_ t) /\ NodeHeight (root_ t) < INT_MAX).
  { intros Hcls.
    destruct (run_sane cls ms ops empty_tree t Hcls I) as [Ok Hh];
      [simpl; lia|exact H|].
    split; [exact Ok|]. simpl in Hh. lia. }
  unfold sane. destruct cls; [exact I| |]; apply G; discriminate.
Qed.

(** ** Insertion keeps the AVL invariant *)

Lemma height_nonneg p : 0 <= height p.
Proof. destruct p; simpl; [lia|]. induction p1; simpl in *; lia. Qed.

Lemma NodeHeight_exact p : heights_exact p -> NodeHeight p = height p.
Proof. destruct p; simpl; tauto. Qed.

Lemma NodeSize_exact p : sizes_exact p -> NodeSize p = to_size_t (count p).
Proof. destruct p; simpl; [reflexivity|tauto]. Qed.

Lemma AvlInvariant_Ptr cls l n r :
  AvlInvariant cls (Ptr l n r) <->
  AvlInvariant cls l /\ AvlInvariant cls r /\
  -1 <= height l - height r <= 1 /\
  height_ n = Z.max (height l) (height r) + 1 /\
  (cls = TAvlTreeWithSize ->
   subtree_size_ n = to_size_t (count l + count r + 1)).
Proof. unfold AvlInvariant. simpl. tauto. Qed.

Lemma size_t_sum a b :
  to_size_t (to_size_t (to_size_t b + to_size_t a) + 1) = to_size_t (a + b + 1).
Proof.
  unfold to_size_t.
  rewrite <- Z.add_mod by lia.
  rewrite Z.add_mod_idemp_l by lia.
  f_equal. lia.
Qed.

Section Avl.

Variable cls : TreeClass.

Lemma Renew_Ptr l n r :
  exists n', RenewNodesHeight cls (Ptr l n r) = Ptr l n' r.
Proof. unfold RenewNodesHeight. destruct cls; eauto. Qed.

(** Renewing a node whose children are fine and differ by at most one. *)
Lemma Renew_avl l n r :
  AvlInvariant cls l -> AvlInvariant cls r ->
  -1 <= height l - height r <= 1 ->
  height l < 2 ^ 63 -> height r < 2 ^ 63 ->
  exists n',
    RenewNodesHeight cls (Ptr l n r) = Ptr l n' r /\
    AvlInvariant cls (Ptr l n' r).
Proof.
  intros Al Ar Hbal Bl Br.
  pose proof (height_nonneg l). pose proof (height_nonneg r).
  assert (E : to_size_t (Z.max (NodeHeight r) (NodeHeight l) + 1) =
              Z.max (height l) (height r) + 1).
  { rewrite !NodeHeight_exact by apply Al || apply Ar.
    rewrite to_size_t_small; lia. }
  unfold RenewNodesHeight. rewrite E.
  destruct cls eqn:Ec; eexists; (split; [reflexivity|]);
    apply AvlInvariant_Ptr;
    (split; [exact Al|]); (split; [exact Ar|]); (split; [lia|]);
    (split; [reflexivity|]); try discriminate.
  intros _. cbn [subtree_size_].
  rewrite !NodeSize_exact by (apply Al || apply Ar; reflexivity).
  apply size_t_sum.
Qed.

Lemma BalanceNode_avl l n r :
  AvlInvariant cls l -> AvlInvariant cls r ->
  -2 <= height l - height r <= 2 ->
  height l < INT_MAX -> height r < INT_MAX ->
  exists b,
    BalanceNode cls (Ptr l n r) = Some b /\ AvlInvariant cls b /\
    Z.max (height l) (height r) <= height b <= Z.max (height l) (height r) + 1 /\
    (-1 <= height l - height r <= 1 ->
     height b = Z.max (height l) (height r) + 1).
Proof.
  unfold INT_MAX. intros Al Ar Hd Bl Br.
  pose proof (height_nonneg l) as Pl. pose proof (height_nonneg r) as Pr.
  assert (Nl : NodeHeight l = height l) by (apply NodeHeight_exact, Al).
  assert (Nr : NodeHeight r = height r) by (apply NodeHeight_exact, Ar).
  unfold BalanceNode.
  destruct (Renew_Ptr l n r) as (n1 & E1). rewrite E1.
  rewrite HeightDiff_exact, Nl, Nr by lia.
  destruct (Z.ltb_spec (height l - height r) (-1)) as [C|C].
  - (* the right side is higher by two *)
    destruct r as [|rl rn rr]; [simpl in *; lia|].
    apply AvlInvariant_Ptr in Ar. destruct Ar as (Arl & Arr & Hb & Hh & Hs).
    pose proof (height_nonneg rl). pose proof (height_nonneg rr).
    assert (Nrl : NodeHeight rl = height rl) by (apply NodeHeight_exact, Arl).
    assert (Nrr : NodeHeight rr = height rr) by (apply NodeHeight_exact, Arr).
    cbn [height] in *.
    unfold LeftRotation. rewrite HeightDiff_exact, Nrl, Nrr by lia.
    destruct (Z.leb_spec (height rl - height rr) 0) as [D|D].
    + rewrite RotateLeft_eq.
      destruct (Renew_avl l n1 rl Al Arl) as (n2 & E2 & A2); [lia|lia|lia|].
      rewrite E2.
      destruct (Renew_avl (Ptr l n2 rl) rn rr A2 Arr) as (n3 & E3 & A3);
        [cbn [height]; lia|cbn [height]; lia|lia|].
      rewrite E3. eexists. split; [reflexivity|]. split; [exact A3|].
      cbn [height]. lia.
    + destruct rl as [|rll rln rlr]; [simpl in *; lia|].
      apply AvlInvariant_Ptr in Arl.
      destruct Arl as (Arll & Arlr & Hb' & Hh' & Hs').
      pose proof (height_nonneg rll). pose proof (height_nonneg rlr).
      cbn [height] in *.
      rewrite RotateRight_eq. cbn [bind].
      destruct (Renew_avl rlr rn rr Arlr Arr) as (n2 & E2 & A2);
        [lia|lia|lia|].
      rewrite E2.
      destruct (Renew_Ptr rll rln (Ptr rlr n2 rr)) as (n3 & E3).
      rewrite E3, RotateLeft_eq.
      destruct (Renew_avl l n1 rll Al Arll) as (n4 & E4 & A4); [lia|lia|lia|].
      rewrite E4.
      destruct (Renew_avl (Ptr l n4 rll) n3 (Ptr rlr n2 rr) A4 A2)
        as (n5 & E5 & A5); [cbn [height]; lia|cbn [height]; lia
                           |cbn [height]; lia|].
      rewrite E5. eexists. split; [reflexivity|]. split; [exact A5|].
      cbn [height]. lia.
  - destruct (Z.gtb_spec (height l - height r) 1) as [C'|C'].
    + (* the left side is higher by two *)
      destruct l as [|ll ln lr]; [simpl in *; lia|].
      apply AvlInvariant_Ptr in Al. destruct Al as (All & Alr & Hb & Hh & Hs).
      pose proof (height_nonneg ll). pose proof (height_nonneg lr).
      assert (Nll : NodeHeight ll = height ll)
        by (apply NodeHeight_exact, All).
      assert (Nlr : NodeHeight lr = height lr)
        by (apply NodeHeight_exact, Alr).
      cbn [height] in *.
      unfold RightRotation. rewrite HeightDiff_exact, Nll, Nlr by lia.
      destruct (Z.geb_spec (height ll - height lr) 0) as [D|D].
      * rewrite RotateRight_eq.
        destruct (Renew_avl lr n1 r Alr Ar) as (n2 & E2 & A2); [lia|lia|lia|].
        rewrite E2.
        destruct (Renew_avl ll ln (Ptr lr n2 r) All A2) as (n3 & E3 & A3);
          [cbn [height]; lia|lia|cbn [height]; lia|].
        rewrite E3. eexists. split; [reflexivity|]. split; [exact A3|].
        cbn [height]. lia.
      * destruct lr as [|lrl lrn lrr]; [simpl in *; lia|].
        apply AvlInvariant_Ptr in Alr.
        destruct Alr as (Alrl & Alrr & Hb' & Hh' & Hs').
        pose proof (height_nonneg lrl). pose proof (height_nonneg lrr).
        cbn [height] in *.
        rewrite RotateLeft_eq. cbn [bind].
        destruct (Renew_avl ll ln lrl All Alrl) as (n2 & E2 & A2);
          [lia|lia|lia|].
        rewrite E2.
        destruct (Renew_Ptr (Ptr ll n2 lrl) lrn lrr) as (n3 & E3).
        rewrite E3, RotateRight_eq.
        destruct (Renew_avl lrr n1 r Alrr Ar) as (n4 & E4 & A4);
          [lia|lia|lia|].
        rewrite E4.
        destruct (Renew_avl (Ptr ll n2 lrl) n3 (Ptr lrr n4 r) A2 A4)
          as (n5 & E5 & A5); [cbn [height]; lia|cbn [height]; lia
                             |cbn [height]; lia|].
        rewrite E5. eexists. split; [reflexivity|]. split; [exact A5|].
        cbn [height]. lia.
    + destruct (Renew_avl l n r Al Ar) as (n1' & E1' & A1); [lia|lia|lia|].
      rewrite E1 in E1'. rewrite E1'.
      eexists. split; [reflexivity|]. split; [exact A1|].
      cbn [height]. lia.
Qed.

End Avl.


Lemma InsertRecursive_avl cls ms v node s :
  cls <> TSearchTree -> AvlInvariant cls node -> height node < INT_MAX ->
  exists b s',
    InsertRecursive cls ms v node s = Some (b, s') /\
    AvlInvariant cls b /\ height node <= height b <= height node + 1.
Proof.
  intros Hcls. revert s.
  induction node as [|l IHl n r IHr]; intros s Ha Hb.
  - simpl. do 2 eexists. split; [reflexivity|]. split; [|simpl; lia].
    apply AvlInvariant_Ptr. unfold AvlInvariant. simpl.
    repeat split; trivial; lia.
  - pose proof Ha as Ha'.
    apply AvlInvariant_Ptr in Ha. destruct Ha as (Al & Ar & Hbal & Hh & Hs).
    pose proof (height_nonneg l). pose proof (height_nonneg r).
    cbn [height] in Hb. unfold INT_MAX in *.
    simpl InsertRecursive. rewrite !Balance_BalanceNode by assumption.
    destruct (value_ n =? v); [|destruct (value_ n >? v)].
    + destruct (BalanceNode_avl cls l (InsertIfFound ms n) r Al Ar)
        as (b & E & Ab & Hhb & Hex); [lia|unfold INT_MAX; lia
                                     |unfold INT_MAX; lia|].
      rewrite E. cbn [bind]. do 2 eexists. split; [reflexivity|].
      split; [assumption|]. cbn [height]. lia.
    + destruct (IHl s Al) as (l' & s' & E & Al' & Hhl); [lia|].
      rewrite E. cbn [bind]. rewrite Balance_BalanceNode by assumption.
      destruct (BalanceNode_avl cls l' n r Al' Ar) as (b & Eb & Ab & Hhb & Hex);
        [lia|unfold INT_MAX; lia|unfold INT_MAX; lia|].
      rewrite Eb. cbn [bind]. do 2 eexists. split; [reflexivity|].
      split; [assumption|]. cbn [height]. lia.
    + destruct (IHr s Ar) as (r' & s' & E & Ar' & Hhr); [lia|].
      rewrite E. cbn [bind]. rewrite Balance_BalanceNode by assumption.
      destruct (BalanceNode_avl cls l n r' Al Ar') as (b & Eb & Ab & Hhb & Hex);
        [lia|unfold INT_MAX; lia|unfold INT_MAX; lia|].
      rewrite Eb. cbn [bind]. do 2 eexists. split; [reflexivity|].
      split; [assumption|]. cbn [height]. lia.
Qed.

(** In the classes that balance, [Insert] returns and keeps the AVL
    invariant; the tree grows by at most one level. *)
Lemma Insert_AvlInvariant cls ms v t :
  cls <> TSearchTree ->
  AvlInvariant cls (root_ t) -> height (root_ t) < INT_MAX ->
  exists t',
    Insert cls ms v t = Some t' /\ AvlInvariant cls (root_ t') /\
    height (root_ t') <= height (root_ t) + 1.
Proof.
  intros Hcls Ha Hb.
  destruct (InsertRecursive_avl cls ms v _ (size_ t) Hcls Ha Hb)
    as (b & s' & E & Ab & Hh).
  unfold Insert. rewrite E. cbn [bind].
  pose proof (InsertRecursive_not_null _ _ _ _ _ _ _ E) as Hn.
  destruct b as [|bl bn br]; [congruence|].
  eexists. split; [reflexivity|]. split; [exact Ab|]. simpl root_. lia.
Qed.

(** Sequences of insertions alone never leave the AVL invariant. *)
Lemma inserts_AvlInvariant cls ms vs t :
  cls <> TSearchTree ->
  AvlInvariant cls (root_ t) ->
  height (root_ t) + Z.of_nat (length vs) <= INT_MAX ->
  exists t',
    run cls ms (map OInsert vs) t = Some t' /\ AvlInvariant cls (root_ t') /\
    height (root_ t') <= height (root_ t) + Z.of_nat (length vs).
Proof.
  intros Hcls. revert t.
  induction vs as [|v vs IH]; intros t Ha Hb.
  - exists t. split; [reflexivity|]. split; [exact Ha|]. simpl. lia.
  - cbn [length] in *. rewrite Nat2Z.inj_succ in *.
    destruct (Insert_AvlInvariant cls ms v t Hcls Ha) as (t1 & E1 & A1 & H1);
      [lia|].
    destruct (IH t1 A1) as (t' & E' & A' & H'); [lia|].
    exists t'. simpl. rewrite E1. cbn [bind].
    split; [exact E'|]. split; [exact A'|]. lia.
Qed.

(** ** Sequences of calls on in-order sequences *)

Lemma run_app cls ms ops1 ops2 t :
  run cls ms (ops1 ++ ops2) t =
  (t' <- run cls ms ops1 t ;; run cls ms ops2 t').
Proof.
  revert t. induction ops1 as [|o ops1 IH]; intros t; simpl; [reflexivity|].
  destruct (step cls ms o t) as [t1|]; simpl; [apply IH|reflexivity].
Qed.

Lemma run_entries cls ms ops t t' :
  bst (root_ t) -> run cls ms ops t = Some t' ->
  entries (root_ t') =
  fold_left (fun es o => step_list ms o es) ops (entries (root_ t)).
Proof.
  revert t. induction ops as [|o ops IH]; intros t Hb H.
  - simpl in H. now injection H as <-.
  - apply run_cons in H. destruct H as (t1 & H1 & H2).
    destruct (step_entries _ _ _ _ _ Hb H1) as [Hb1 He1].
    simpl. rewrite <- He1. now apply IH.
Qed.

Lemma ins_list_keys ms v es x :
  In x (map fst (ins_list ms v es)) -> x = v \/ In x (map fst es).
Proof.
  induction es as [|e es IH]; simpl.
  - intuition.
  - destruct (fst e =? v); [|destruct (fst e >? v)]; simpl; intuition.
Qed.

Lemma inserts_keys ms vs es x :
  In x (map fst (fold_left (fun es o => step_list ms o es)
                           (map OInsert vs) es)) ->
  In x vs \/ In x (map fst es).
Proof.
  revert es. induction vs as [|v vs IH]; intros es; simpl; [tauto|].
  intros H. apply IH in H. destruct H as [H|H]; [tauto|].
  apply ins_list_keys in H. intuition.
Qed.

Lemma erases_all ms vs es :
  (forall x, In x (map fst es) -> In x vs) ->
  fold_left (fun es o => step_list ms o es) (map OErase vs) es = [].
Proof.
  revert es. induction vs as [|v vs IH]; intros es H; simpl.
  - destruct es as [|e es]; [reflexivity|]. destruct (H (fst e)). now left.
  - apply IH. intros x Hx. apply in_map_iff in Hx.
    destruct Hx as (e & <- & He). apply filter_In in He.
    destruct He as [He Hne].
    destruct (H (fst e)) as [E|E]; [now apply in_map|..|assumption].
    rewrite E, Z.eqb_refl in Hne. discriminate.
Qed.

(** A returning [Erase] leaves a root; a sequence ending in one too. *)
Lemma run_Erase_last cls ms ops v t t' :
  run cls ms (ops ++ [OErase v]) t = Some t' -> root_ t' <> nullptr.
Proof.
  rewrite run_app. intros H. bind_inv H. simpl in H. bind_inv H.
  injection H as <-. unfold Erase in E0.
  destruct (EraseRecursive v (root_ t0)); [discriminate|].
  injection E0 as <-. discriminate.
Qed.

Lemma round_trip_None cls ms vs :
  vs <> [] ->
  run cls ms (map OInsert vs ++ map OErase vs) empty_tree = None.
Proof.
  intros Hvs.
  destruct (run cls ms (map OInsert vs ++ map OErase vs) empty_tree)
    as [t|] eqn:H; [exfalso|reflexivity].
  assert (He : entries (root_ t) = []).
  { rewrite (run_entries cls ms _ empty_tree t I H), fold_left_app.
    apply erases_all. intros x Hx. apply inserts_keys in Hx.
    destruct Hx as [Hx|[]]. exact Hx. }
  apply entries_nil in He.
  destruct (exists_last Hvs) as (vs' & v & ->).
  rewrite (map_app OErase), app_assoc in H.
  apply run_Erase_last in H. contradiction.
Qed.

(** ** Insertion of a value that is present *)

Lemma ins_list_present ms v es :
  sorted (map fst es) -> In v (map fst es) ->
  ins_list ms v es = map (fun e => if fst e =? v then bump ms e else e) es.
Proof.
  induction es as [|e es IH]; simpl; [contradiction|].
  intros [Hall Hs] Hin. rewrite Forall_forall in Hall.
  destruct (Z.eqb_spec (fst e) v) as [E|N].
  - f_equal. symmetry. rewrite <- (map_id es) at 2.
    apply map_ext_in. intros a Ha.
    destruct (Z.eqb_spec (fst a) v) as [E'|]; [|reflexivity].
    specialize (Hall (fst a) (in_map fst _ _ Ha)). lia.
  - destruct Hin as [Hin|Hin]; [contradiction|].
    destruct (Z.gtb_spec (fst e) v) as [G|G].
    + specialize (Hall v Hin). lia.
    + f_equal. now apply IH.
Qed.









(** * The claims of the specification *)

(** C1.  The claim asks for the AVL invariant (balance, exact stored
    heights, exact stored sizes) after every [Insert] and [Erase], with the
    rebalancing hook applied on the way back up from an [Erase].  The source
    calls [Balance] in [InsertRecursive] only: [EraseRecursive] returns its
    node as it is.  In both AVL classes and both modes, inserting 2, 1, 3, 4
    and erasing 1 leaves the root with an empty left subtree and a right
    subtree of height 2, and inserting 2, 1 and erasing 1 leaves the root
    with the stored height 2 (and the stored size 2) above no child. *)
Theorem Erase_does_not_rebalance :
  forall ms : bool,
    (exists t,
        run TAvlTree ms
            [OInsert 2; OInsert 1; OInsert 3; OInsert 4; OErase 1]
            empty_tree = Some t /\
        ~ balanced (root_ t)) /\
    (exists t,
        run TAvlTree ms [OInsert 2; OInsert 1; OErase 1] empty_tree = Some t /\
        ~ heights_exact (root_ t)) /\
    (exists t,
        run TAvlTreeWithSize ms
            [OInsert 2; OInsert 1; OInsert 3; OInsert 4; OErase 1]
            empty_tree = Some t /\
        ~ balanced (root_ t)) /\
    (exists t,
        run TAvlTreeWithSize ms [OInsert 2; OInsert 1; OErase 1] empty_tree
        = Some t /\
        ~ heights_exact (root_ t) /\ ~ sizes_exact (root_ t)).
Proof.
  intros ms. destruct ms; repeat split;
    (eexists; split; [vm_compute; reflexivity|]);
    try (simpl; lia).
  all: split; [simpl; lia|].
  all: intros (_ & _ & H); vm_compute in H; discriminate.
Qed.

(** C2.  The claim asks that inserting [n] distinct values and erasing them
    all gives back [Empty() == true] and [Size() == 0].  In the source
    [Erase] never touches [size_], and it dereferences [root_] after the
    assignment, which is null once the last value is gone: for every
    non-empty list of values the round trip does not return, a returning
    [Erase] leaves [Size()] as it was, and after inserting 1 and 2 and
    erasing 1 the tree holds the single value 2 with [Size() == 2]. *)
Theorem round_trip_never_empties (cls : TreeClass) (ms : bool) :
  (forall vs, vs <> [] ->
     run cls ms (map OInsert vs ++ map OErase vs) empty_tree = None) /\
  (forall v t t', Erase v t = Some t' -> Size t' = Size t) /\
  (exists t,
      run cls ms [OInsert 1; OInsert 2; OErase 1] empty_tree = Some t /\
      values (root_ t) = [2] /\ Size t = 2 /\ Empty t = false).
Proof.
  split; [|split].
  - apply round_trip_None.
  - intros v t t' H. now apply Erase_Some in H.
  - destruct cls, ms;
      (eexists; split; [vm_compute; reflexivity|]); repeat split.
Qed.

Lemma round_trip_never_empties_witness :
  run TAvlTree false (map OInsert [1; 2] ++ map OErase [1; 2]) empty_tree
  = None /\
  Size (mkTree (Ptr nullptr (mkNode 2 1 2 1) nullptr) 2) = Size
    (mkTree (Ptr (Ptr nullptr (mkNode 1 1 1 1) nullptr) (mkNode 2 1 2 1)
                 nullptr) 2).
Proof.
  split.
  - apply (proj1 (round_trip_never_empties TAvlTree false) [1; 2]).
    discriminate.
  - apply (proj1 (proj2 (round_trip_never_empties TAvlTree false)) 1).
    reflexivity.
Defined.

(** C3.  The claim asks that [Erase] of an absent value returns normally and
    changes nothing, for every tree and for the empty tree as well.  On the
    empty tree the source assigns null to [root_] and then evaluates
    [root_->parent_]: the call has no defined result.  On a tree that has a
    root, [Erase] of an absent value returns the tree it was given. *)
Theorem Erase_absent :
  (forall v, Erase v empty_tree = None) /\
  (forall v t,
      root_ t <> nullptr -> Exsist v t = false -> Erase v t = Some t).
Proof.
  split.
  - intros v. reflexivity.
  - intros v [root size] Hr Hf. unfold Exsist in Hf. simpl in *.
    unfold Erase. simpl.
    rewrite EraseRecursive_absent.
    + destruct root; [congruence|reflexivity].
    + destruct (FindRecursive v root); [reflexivity|discriminate].
Qed.

Lemma Erase_absent_witness :
  Erase 3 (mkTree (Ptr nullptr (mkNode 5 1 1 1) nullptr) 1)
  = Some (mkTree (Ptr nullptr (mkNode 5 1 1 1) nullptr) 1).
Proof.
  apply (proj2 Erase_absent 3
           (mkTree (Ptr nullptr (mkNode 5 1 1 1) nullptr) 1)).
  - discriminate.
  - reflexivity.
Defined.

(** C4.  The claim asks that in multiset mode a node leaves the tree only
    when its occurrence count reaches zero.  [EraseIfFound] never reads
    [cnt_]: in every class, after inserting 5, 7 and 7 the node of 7 has
    the count 2, and a single [Erase(7)] removes it; more generally the
    erased value is never found after an [Erase] that returns. *)
Theorem Erase_ignores_count (cls : TreeClass) :
  (exists t t',
      run cls true [OInsert 5; OInsert 7; OInsert 7] empty_tree = Some t /\
      entries (root_ t) = [(5, 1); (7, 2)] /\
      Erase 7 t = Some t' /\
      entries (root_ t') = [(5, 1)] /\ Exsist 7 t' = false) /\
  (forall v t t',
      bst (root_ t) -> Erase v t = Some t' -> Exsist v t' = false).
Proof.
  split.
  - destruct cls;
      (do 2 eexists; split; [vm_compute; reflexivity|]);
      (split; [reflexivity|]); (split; [vm_compute; reflexivity|]);
      split; reflexivity.
  - intros v t t' Hb H. apply Erase_Some in H. destruct H as [Hr _].
    unfold Exsist.
    destruct (to_bool (FindRecursive v (root_ t'))) eqn:F; [|reflexivity].
    exfalso. apply FindRecursive_In in F.
    + rewrite Hr, values_entries, (EraseRecursive_entries _ _ Hb) in F.
      apply in_map_iff in F. destruct F as (e & E & He).
      apply filter_In in He. destruct He as [_ He].
      rewrite E, Z.eqb_refl in He. discriminate.
    + rewrite Hr. now apply bst_EraseRecursive.
Qed.

Lemma Erase_ignores_count_witness :
  Exsist 7 (mkTree (Ptr nullptr (mkNode 5 1 2 1) nullptr) 2) = false.
Proof.
  apply (proj2 (Erase_ignores_count TAvlTree) 7
           (mkTree (Ptr nullptr (mkNode 5 1 2 1)
                        (Ptr nullptr (mkNode 7 2 1 1) nullptr)) 2)).
  - simpl. repeat split; lia.
  - reflexivity.
Defined.

(** C5.  On a tree that satisfies the order invariant, [Next(x)] points to
    the least value of the tree above [x] and is the end iterator when
    there is none, [Prev(x)] points to the greatest value below [x] and is
    the end iterator when there is none.  On the empty tree [Next(0)] is
    not valid; after inserting 5 alone, in every class and mode, [Next(0)]
    points to 5 and [Prev(5)] is not valid. *)
Theorem Next_Prev_correct :
  (forall x t, bst (root_ t) ->
     least_above x (values (root_ t)) (Next x t) /\
     greatest_below x (values (root_ t)) (Prev x t)) /\
  IsValid (Next 0 empty_tree) = false /\
  (forall cls ms,
     exists t,
       Insert cls ms 5 empty_tree = Some t /\
       deref (Next 0 t) = Some 5 /\ IsValid (Prev 5 t) = false).
Proof.
  split; [|split].
  - intros x t Hb. split.
    + pose proof (NextLoop_spec x (root_ t) nullptr Hb (Forall_nil _)) as H.
      simpl in H. rewrite app_nil_r in H. exact H.
    + pose proof (PrevLoop_spec x (root_ t) nullptr Hb (Forall_nil _)) as H.
      simpl in H. rewrite app_nil_r in H. exact H.
  - reflexivity.
  - intros cls ms. destruct cls, ms;
      (eexists; split; [vm_compute; reflexivity|]); split; reflexivity.
Qed.

Lemma Next_Prev_correct_witness :
  least_above 6 [1; 6; 9]
    (Next 6 (mkTree (Ptr (Ptr nullptr (mkNode 1 1 1 1) nullptr)
                         (mkNode 6 1 2 3)
                         (Ptr nullptr (mkNode 9 1 1 1) nullptr)) 3)) /\
  greatest_below 6 [1; 6; 9]
    (Prev 6 (mkTree (Ptr (Ptr nullptr (mkNode 1 1 1 1) nullptr)
                         (mkNode 6 1 2 3)
                         (Ptr nullptr (mkNode 9 1 1 1) nullptr)) 3)).
Proof.
  apply (proj1 Next_Prev_correct 6
           (mkTree (Ptr (Ptr nullptr (mkNode 1 1 1 1) nullptr)
                        (mkNode 6 1 2 3)
                        (Ptr nullptr (mkNode 9 1 1 1) nullptr)) 3)).
  simpl. repeat split; lia.
Defined.

(** C6.  A single rotation is defined on a node that has the son it lifts
    (a left son for [RotateRight], a right son for [RotateLeft]), which is
    where the rebalancing applies it; it then returns a subtree with the
    same in-order sequence of values, and of occurrence counts. *)
Theorem rotation_keeps_inorder (cls : TreeClass) :
  (forall sl son T2 n r,
     exists b,
       RotateRight cls (Ptr (Ptr sl son T2) n r) = Some b /\
       values b = values (Ptr (Ptr sl son T2) n r) /\
       entries b = entries (Ptr (Ptr sl son T2) n r)) /\
  (forall l n T2 son sr,
     exists b,
       RotateLeft cls (Ptr l n (Ptr T2 son sr)) = Some b /\
       values b = values (Ptr l n (Ptr T2 son sr)) /\
       entries b = entries (Ptr l n (Ptr T2 son sr))).
Proof.
  split.
  - intros sl son T2 n r. eexists. split; [apply RotateRight_eq|].
    assert (E : entries (RenewNodesHeight cls
                  (Ptr sl son (RenewNodesHeight cls (Ptr T2 n r)))) =
                entries (Ptr (Ptr sl son T2) n r)).
    { apply entries_RotateRight with (cls := cls). apply RotateRight_eq. }
    split; [|exact E]. now rewrite !values_entries, E.
  - intros l n T2 son sr. eexists. split; [apply RotateLeft_eq|].
    assert (E : entries (RenewNodesHeight cls
                  (Ptr (RenewNodesHeight cls (Ptr l n T2)) son sr)) =
                entries (Ptr l n (Ptr T2 son sr))).
    { apply entries_RotateLeft with (cls := cls). apply RotateLeft_eq. }
    split; [|exact E]. now rewrite !values_entries, E.
Qed.

(** C7.  Every sequence of [Insert] and [Erase] calls that starts in a
    tree satisfying the order invariant (the empty tree does) ends, when
    its calls return, in a tree satisfying it: for every node, the values of
    the left subtree are below the value of the node, and those of the
    right subtree above. *)
Theorem bst_order_invariant (cls : TreeClass) (ms : bool) ops t t' :
  bst (root_ t) -> run cls ms ops t = Some t' -> bst (root_ t').
Proof.
  revert t. induction ops as [|o ops IH]; intros t Hb H.
  - simpl in H. now injection H as <-.
  - apply run_cons in H. destruct H as (t1 & H1 & H2).
    apply (IH t1); [|exact H2].
    destruct o as [v|v]; simpl in H1.
    + apply Insert_Some in H1. eapply bst_InsertRecursive; eassumption.
    + apply Erase_Some in H1. destruct H1 as [-> _].
      now apply bst_EraseRecursive.
Qed.

Lemma bst_order_invariant_witness :
  bst (Ptr (Ptr nullptr (mkNode 2 1 1 1) nullptr) (mkNode 3 1 2 1)
           (Ptr nullptr (mkNode 4 1 1 1) nullptr)).
Proof.
  apply (bst_order_invariant TAvlTree false
           [OInsert 2; OInsert 1; OInsert 3; OInsert 4; OErase 1; OInsert 4]
           empty_tree
           (mkTree (Ptr (Ptr nullptr (mkNode 2 1 1 1) nullptr)
                        (mkNode 3 1 2 1)
                        (Ptr nullptr (mkNode 4 1 1 1) nullptr)) 4)).
  - exact I.
  - vm_compute. reflexivity.
Defined.

(** C8.  The calls of [main1]: after inserting 10, 2, 6, 8, 3, 6, 1, 9, 3,
    15, 13, 11, 12, 18 into a [TAvlTreeWithSize<int64_t, false>], [Prev(8)]
    points to 6 and the in-order sequence of the tree is 1, 2, 3, 6, 8, 9,
    10, 11, 12, 13, 15, 18. *)
Theorem main1_scenario :
  exists t,
    run TAvlTreeWithSize false (map OInsert main1_values) empty_tree
    = Some t /\
    deref (Prev 8 t) = Some 6 /\
    values (root_ t) = [1; 2; 3; 6; 8; 9; 10; 11; 12; 13; 15; 18].
Proof.
  eexists. split; [vm_compute; reflexivity|]. split; reflexivity.
Qed.




(** C10.  In set mode every node of a tree obtained from the empty tree by
    [Insert] and [Erase] calls has the occurrence count 1. *)
Theorem set_mode_counts_one (cls : TreeClass) ops t :
  run cls false ops empty_tree = Some t -> counts_one (root_ t).
Proof.
  assert (G : forall ops t0,
             bst (root_ t0) -> counts_one (root_ t0) ->
             run cls false ops t0 = Some t -> counts_one (root_ t)).
  { clear ops. intros ops.
    induction ops as [|o ops IH]; intros t0 Hb Hc H.
    - simpl in H. now injection H as <-.
    - apply run_cons in H. destruct H as (t1 & H1 & H2).
      destruct (step_entries _ _ _ _ _ Hb H1) as [Hb1 He1].
      apply (IH t1 Hb1); [|exact H2].
      apply counts_one_entries. rewrite He1.
      apply counts_one_entries in Hc.
      destruct o; simpl;
        [now apply ins_list_set_ones|now apply del_list_ones]. }
  apply G; [exact I|constructor].
Qed.

Lemma set_mode_counts_one_witness :
  counts_one (Ptr (Ptr nullptr (mkNode 2 1 1 1) nullptr) (mkNode 3 1 2 1)
                  (Ptr nullptr (mkNode 4 1 1 1) nullptr)).
Proof.
  apply (set_mode_counts_one TAvlTree
           [OInsert 2; OInsert 1; OInsert 3; OInsert 3; OInsert 4; OErase 1;
            OInsert 4]
           (mkTree (Ptr (Ptr nullptr (mkNode 2 1 1 1) nullptr)
                        (mkNode 3 1 2 1)
                        (Ptr nullptr (mkNode 4 1 1 1) nullptr)) 4)).
  vm_compute. reflexivity.
Defined.

(** * Further properties of the code *)

(** ** Membership *)

Lemma Exsist_In v t :
  bst (root_ t) -> (Exsist v t = true <-> In v (values (root_ t))).
Proof. intros Hb. unfold Exsist. now apply FindRecursive_In. Qed.

Lemma bool_eq_iff (a b : bool) : (a = true <-> b = true) -> a = b.
Proof. destruct a, b; intuition congruence. Qed.

Lemma In_ins_list ms v es x :
  In x (map fst (ins_list ms v es)) <-> x = v \/ In x (map fst es).
Proof.
  split; [apply ins_list_keys|].
  induction es as [|e es IH]; simpl.
  - intuition.
  - destruct (Z.eqb_spec (fst e) v) as [E|N]; [|destruct (fst e >? v)];
      simpl; intuition congruence.
Qed.

Lemma In_del_list v es x :
  In x (map fst (del_list v es)) <-> x <> v /\ In x (map fst es).
Proof.
  unfold del_list. rewrite !in_map_iff. split.
  - intros (e & <- & He). apply filter_In in He. destruct He as [He Hn].
    split; [|eauto]. intros E. rewrite E, Z.eqb_refl in Hn. discriminate.
  - intros (Hn & e & <- & He). exists e. split; [reflexivity|].
    apply filter_In. split; [assumption|].
    destruct (Z.eqb_spec (fst e) v); [contradiction|reflexivity].
Qed.

(** X1.  After an [Insert(v)] that returns, [Exsist(v)] is true and the
    answer of [Exsist] for every other value is what it was. *)
Theorem Insert_then_Exsist (cls : TreeClass) (ms : bool) v t t' :
  bst (root_ t) -> Insert cls ms v t = Some t' ->
  Exsist v t' = true /\
  forall w, w <> v -> Exsist w t' = Exsist w t.
Proof.
  intros Hb H. apply Insert_Some in H.
  pose proof (bst_InsertRecursive _ _ _ _ _ _ _ Hb H) as Hb'.
  pose proof (InsertRecursive_entries _ _ _ _ _ _ _ Hb H) as He.
  assert (Hin : forall w, In w (values (root_ t')) <->
                          w = v \/ In w (values (root_ t))).
  { intros w. rewrite !values_entries, He. apply In_ins_list. }
  split.
  - apply Exsist_In; [exact Hb'|]. apply Hin. now left.
  - intros w Hw. apply bool_eq_iff.
    rewrite (Exsist_In w t' Hb'), (Exsist_In w t Hb), Hin. tauto.
Qed.

Lemma Insert_then_Exsist_witness :
  Exsist 7 (mkTree (Ptr nullptr (mkNode 5 1 2 1)
                        (Ptr nullptr (mkNode 7 1 1 1) nullptr)) 2) = true /\
  Exsist 5 (mkTree (Ptr nullptr (mkNode 5 1 2 1)
                        (Ptr nullptr (mkNode 7 1 1 1) nullptr)) 2) =
  Exsist 5 (mkTree (Ptr nullptr (mkNode 5 1 1 1) nullptr) 1).
Proof.
  destruct (Insert_then_Exsist TAvlTree false 7
              (mkTree (Ptr nullptr (mkNode 5 1 1 1) nullptr) 1)
              (mkTree (Ptr nullptr (mkNode 5 1 2 1)
                           (Ptr nullptr (mkNode 7 1 1 1) nullptr)) 2))
    as [H1 H2].
  - simpl. tauto.
  - reflexivity.
  - split; [exact H1|]. apply H2. discriminate.
Defined.

Lemma length_del_list v es :
  sorted (map fst es) ->
  length (del_list v es) =
  Nat.sub (length es)
          (if existsb (fun e => fst e =? v) es then 1%nat else 0%nat).
Proof.
  induction es as [|e es IH]; simpl; [reflexivity|].
  intros [Hall Hs]. specialize (IH Hs).
  destruct (Z.eqb_spec (fst e) v) as [E|N]; simpl.
  - rewrite del_list_other; [lia|].
    rewrite Forall_map in Hall. eapply Forall_impl; [|exact Hall].
    simpl. intros; lia.
  - rewrite IH. destruct (existsb (fun e0 => fst e0 =? v) es) eqn:X; [|lia].
    destruct es; [discriminate|simpl; lia].
Qed.

Lemma existsb_entries v p :
  bst p ->
  existsb (fun e => fst e =? v) (entries p) = to_bool (FindRecursive v p).
Proof.
  intros Hb. apply bool_eq_iff.
  rewrite (FindRecursive_In v p Hb), values_entries, existsb_exists.
  rewrite in_map_iff. split.
  - intros (e & He & E). apply Z.eqb_eq in E. eauto.
  - intros (e & E & He). exists e. split; [assumption|now apply Z.eqb_eq].
Qed.

(** X2.  On a tree that satisfies the order invariant, an [Erase(v)] that
    returns removes the pair of [v] from the in-order sequence of (value,
    count) pairs and leaves every other pair where it was, with its count;
    it removes one node if [v] was present and none otherwise, and the
    answer of [Exsist] for every other value is what it was. *)
Theorem Erase_keeps_the_rest v t t' :
  bst (root_ t) -> Erase v t = Some t' ->
  entries (root_ t') =
    filter (fun e => negb (fst e =? v)) (entries (root_ t)) /\
  nodes (root_ t') =
    (nodes (root_ t) - (if Exsist v t then 1 else 0))%nat /\
  forall w, w <> v -> Exsist w t' = Exsist w t.
Proof.
  intros Hb H. apply Erase_Some in H. destruct H as [Hr _].
  pose proof (EraseRecursive_entries v _ Hb) as He. rewrite <- Hr in He.
  assert (Hb' : bst (root_ t')) by (rewrite Hr; now apply bst_EraseRecursive).
  split; [exact He|]. split.
  - rewrite <- !length_entries, He. unfold Exsist.
    rewrite <- existsb_entries by assumption.
    apply length_del_list. rewrite <- values_entries. now apply bst_sorted.
  - intros w Hw. apply bool_eq_iff.
    rewrite (Exsist_In w t' Hb'), (Exsist_In w t Hb).
    rewrite !values_entries, He.
    change (filter (fun e => negb (fst e =? v)) (entries (root_ t)))
      with (del_list v (entries (root_ t))).
    rewrite In_del_list. tauto.
Qed.

Lemma Erase_keeps_the_rest_witness :
  entries (Ptr nullptr (mkNode 7 3 1 1) nullptr) =
    filter (fun e => negb (fst e =? 5))
      (entries (Ptr nullptr (mkNode 5 1 2 1)
                    (Ptr nullptr (mkNode 7 3 1 1) nullptr))) /\
  nodes (Ptr nullptr (mkNode 7 3 1 1) nullptr) =
    (nodes (Ptr nullptr (mkNode 5 1 2 1)
                (Ptr nullptr (mkNode 7 3 1 1) nullptr)) -
     (if Exsist 5 (mkTree (Ptr nullptr (mkNode 5 1 2 1)
                               (Ptr nullptr (mkNode 7 3 1 1) nullptr)) 2)
      then 1 else 0))%nat /\
  Exsist 7 (mkTree (Ptr nullptr (mkNode 7 3 1 1) nullptr) 2) =
  Exsist 7 (mkTree (Ptr nullptr (mkNode 5 1 2 1)
                        (Ptr nullptr (mkNode 7 3 1 1) nullptr)) 2).
Proof.
  destruct (Erase_keeps_the_rest 5
              (mkTree (Ptr nullptr (mkNode 5 1 2 1)
                           (Ptr nullptr (mkNode 7 3 1 1) nullptr)) 2)
              (mkTree (Ptr nullptr (mkNode 7 3 1 1) nullptr) 2))
    as (H1 & H2 & H3).
  - simpl. repeat split; lia.
  - vm_compute. reflexivity.
  - split; [exact H1|]. split; [exact H2|]. apply H3. discriminate.
Defined.

Lemma del_list_nil v es :
  sorted (map fst es) ->
  (del_list v es = [] <-> map fst es = [] \/ map fst es = [v]).
Proof.
  destruct es as [|e es]; simpl; [tauto|].
  intros [Hall Hs].
  destruct (Z.eqb_spec (fst e) v) as [E|N]; simpl.
  - rewrite del_list_other.
    + split.
      * intros ->. right. now rewrite E.
      * intros [H|H]; [discriminate|]. injection H as _ H.
        now destruct es.
    + rewrite Forall_map in Hall. eapply Forall_impl; [|exact Hall].
      simpl. intros; lia.
  - split; [discriminate|]. intros [H|H]; [discriminate|].
    injection H as H _. contradiction.
Qed.

(** X3.  [Erase(v)] has no defined result exactly when it would leave the
    tree without a node: on the empty tree, and on the tree whose only value
    is [v]. *)
Theorem Erase_undefined_iff v t :
  bst (root_ t) ->
  (Erase v t = None <->
   values (root_ t) = [] \/ values (root_ t) = [v]).
Proof.
  intros Hb. rewrite Erase_None, !values_entries.
  rewrite <- del_list_nil
    by (rewrite <- values_entries; now apply bst_sorted).
  rewrite <- (EraseRecursive_entries v _ Hb). split.
  - now intros ->.
  - apply entries_nil.
Qed.

Lemma Erase_undefined_iff_witness :
  Erase 5 (mkTree (Ptr nullptr (mkNode 5 1 1 1) nullptr) 1) = None <->
  values (Ptr nullptr (mkNode 5 1 1 1) nullptr) = [] \/
  values (Ptr nullptr (mkNode 5 1 1 1) nullptr) = [5].
Proof.
  apply (Erase_undefined_iff 5
           (mkTree (Ptr nullptr (mkNode 5 1 1 1) nullptr) 1)).
  simpl. tauto.
Defined.

Lemma FindRecursive_node v p a n b :
  FindRecursive v p = Ptr a n b -> value_ n = v /\ In n (inorder p).
Proof.
  induction p as [|l IHl m r IHr]; simpl; [discriminate|].
  rewrite in_app_iff. simpl.
  destruct (Z.eqb_spec (value_ m) v) as [E|N].
  - intros [= <- <- <-]. tauto.
  - destruct (value_ m >? v); intros H.
    + destruct (IHl H). tauto.
    + destruct (IHr H). tauto.
Qed.

(** X4.  [Find(v)] on a tree that satisfies the order invariant is the end
    iterator when [v] is not in the tree, and otherwise points to a node of
    the tree whose value is [v]. *)
Theorem Find_correct v t :
  bst (root_ t) ->
  match Find v t with
  | nullptr => ~ In v (values (root_ t))
  | Ptr _ n _ => value_ n = v /\ In (v, cnt_ n) (entries (root_ t))
  end.
Proof.
  intros Hb. unfold Find.
  destruct (FindRecursive v (root_ t)) as [|a n b] eqn:F.
  - intros Hin. apply (FindRecursive_In v _ Hb) in Hin.
    rewrite F in Hin. discriminate.
  - destruct (FindRecursive_node _ _ _ _ _ F) as [E Hin].
    split; [exact E|]. rewrite <- E.
    apply (in_map entry) in Hin. exact Hin.
Qed.

Lemma Find_correct_witness :
  match Find 7 (mkTree (Ptr nullptr (mkNode 5 1 2 1)
                            (Ptr nullptr (mkNode 7 2 1 1) nullptr)) 2) with
  | nullptr =>
      ~ In 7 (values (Ptr nullptr (mkNode 5 1 2 1)
                          (Ptr nullptr (mkNode 7 2 1 1) nullptr)))
  | Ptr _ n _ =>
      value_ n = 7 /\
      In (7, cnt_ n) (entries (Ptr nullptr (mkNode 5 1 2 1)
                                   (Ptr nullptr (mkNode 7 2 1 1) nullptr)))
  end.
Proof.
  apply (Find_correct 7
           (mkTree (Ptr nullptr (mkNode 5 1 2 1)
                        (Ptr nullptr (mkNode 7 2 1 1) nullptr)) 2)).
  simpl. repeat split; lia.
Defined.

Lemma FindMin_null p : FindMin p = nullptr -> p = nullptr.
Proof.
  destruct p as [|l n r]; [reflexivity|].
  intros H. now apply FindMin_not_null in H.
Qed.

Lemma FindMax_last p x c y :
  FindMax p = Ptr x c y -> exists hd, inorder p = hd ++ [c].
Proof.
  induction p as [|l _ n r IHr]; [discriminate|].
  destruct r as [|rl rn rr].
  - simpl. intros [= <- <- <-]. exists (inorder l). reflexivity.
  - intros H. change (FindMax (Ptr rl rn rr) = Ptr x c y) in H.
    destruct (IHr H) as (hd & E).
    exists (inorder l ++ n :: hd).
    rewrite inorder_Ptr, E, <- app_assoc. reflexivity.
Qed.

Lemma FindMax_null p : FindMax p = nullptr -> p = nullptr.
Proof.
  induction p as [|l _ n r IHr]; [reflexivity|].
  destruct r as [|rl rn rr]; [discriminate|].
  intros H. change (FindMax (Ptr rl rn rr) = nullptr) in H.
  apply IHr in H. discriminate.
Qed.

(** X5.  On a tree that satisfies the order invariant, [Begin()], that is
    [FindMin(root_)], points to the first node of the in-order sequence,
    whose value is the least of the tree, and [FindMax(root_)] to the last
    one, whose value is the greatest; both are null exactly on the empty
    tree. *)
Theorem Begin_least_FindMax_greatest t :
  bst (root_ t) ->
  match Begin t with
  | nullptr => root_ t = nullptr
  | Ptr _ m _ =>
      (exists tl, inorder (root_ t) = m :: tl) /\
      forall w, In w (values (root_ t)) -> value_ m <= w
  end /\
  match FindMax (root_ t) with
  | nullptr => root_ t = nullptr
  | Ptr _ m _ =>
      (exists hd, inorder (root_ t) = hd ++ [m]) /\
      forall w, In w (values (root_ t)) -> w <= value_ m
  end.
Proof.
  intros Hb. apply bst_sorted in Hb. unfold Begin. split.
  - destruct (FindMin (root_ t)) as [|x m y] eqn:F.
    + now apply FindMin_null.
    + destruct (FindMin_head _ _ _ _ F) as (tl & E & _).
      split; [eauto|]. unfold values in *. rewrite E in *. simpl in *.
      destruct Hb as [Hall _]. rewrite Forall_forall in Hall.
      intros w [<-|Hw]; [lia|]. specialize (Hall w Hw). lia.
  - destruct (FindMax (root_ t)) as [|x m y] eqn:F.
    + now apply FindMax_null.
    + destruct (FindMax_last _ _ _ _ F) as (hd & E).
      split; [eauto|]. unfold values in *. rewrite E, map_app in *.
      simpl in *. apply sorted_app in Hb.
      destruct Hb as (_ & _ & Hall & _). rewrite Forall_forall in Hall.
      intros w Hw. apply in_app_iff in Hw.
      destruct Hw as [Hw|[<-|[]]]; [|lia]. specialize (Hall w Hw). lia.
Qed.

Lemma Begin_least_FindMax_greatest_witness :
  match Begin (mkTree (Ptr nullptr (mkNode 5 1 2 1)
                           (Ptr nullptr (mkNode 7 2 1 1) nullptr)) 2) with
  | nullptr =>
      Ptr nullptr (mkNode 5 1 2 1) (Ptr nullptr (mkNode 7 2 1 1) nullptr)
      = nullptr
  | Ptr _ m _ =>
      (exists tl, [mkNode 5 1 2 1; mkNode 7 2 1 1] = m :: tl) /\
      forall w, In w [5; 7] -> value_ m <= w
  end /\
  match FindMax (Ptr nullptr (mkNode 5 1 2 1)
                     (Ptr nullptr (mkNode 7 2 1 1) nullptr)) with
  | nullptr =>
      Ptr nullptr (mkNode 5 1 2 1) (Ptr nullptr (mkNode 7 2 1 1) nullptr)
      = nullptr
  | Ptr _ m _ =>
      (exists hd, [mkNode 5 1 2 1; mkNode 7 2 1 1] = hd ++ [m]) /\
      forall w, In w [5; 7] -> w <= value_ m
  end.
Proof.
  apply (Begin_least_FindMax_greatest
           (mkTree (Ptr nullptr (mkNode 5 1 2 1)
                        (Ptr nullptr (mkNode 7 2 1 1) nullptr)) 2)).
  simpl. repeat split; lia.
Defined.

(** ** Insertion of a new value, and [Size] *)

Lemma ins_list_absent ms v es :
  ~ In v (map fst es) ->
  length (ins_list ms v es) = S (length es) /\
  In (v, 1) (ins_list ms v es) /\
  forall e, In e es -> In e (ins_list ms v es).
Proof.
  induction es as [|e es IH]; simpl.
  - intros _. repeat split; auto.
  - intros Hn.
    destruct (Z.eqb_spec (fst e) v) as [E|N]; [tauto|].
    destruct (fst e >? v); simpl.
    + repeat split; auto.
    + destruct IH as (Hlen & Hin & Hall); [tauto|].
      repeat split; [lia|tauto|]. intros e' [<-|H]; auto.
Qed.

(** X6.  In a tree that satisfies the order invariant and has sane stored
    heights, [Insert] of a value that is not present returns; the tree has
    one node more, the new value has the count 1, every pair that was in
    the tree is still there, and [Size()] has grown by one (as a
    [size_t]). *)
Theorem Insert_absent (cls : TreeClass) (ms : bool) v t :
  bst (root_ t) -> sane cls (root_ t) -> Exsist v t = false ->
  exists t',
    Insert cls ms v t = Some t' /\
    nodes (root_ t') = S (nodes (root_ t)) /\
    In (v, 1) (entries (root_ t')) /\
    (forall e, In e (entries (root_ t)) -> In e (entries (root_ t'))) /\
    Size t' = to_size_t (Size t + 1).
Proof.
  intros Hb Hs Hex.
  destruct (Insert_returns cls ms v t Hs) as (t' & E).
  exists t'. split; [exact E|].
  apply Insert_Some in E.
  pose proof (InsertRecursive_entries _ _ _ _ _ _ _ Hb E) as He.
  pose proof (InsertRecursive_size _ _ _ _ _ _ _ E) as Hsz.
  unfold Exsist in Hex. rewrite Hex in Hsz.
  assert (Hn : ~ In v (map fst (entries (root_ t)))).
  { rewrite <- values_entries. intros Hin.
    apply (FindRecursive_In v _ Hb) in Hin. congruence. }
  destruct (ins_list_absent ms v _ Hn) as (Hlen & Hin & Hall).
  rewrite <- He in Hlen, Hin, Hall.
  rewrite <- !length_entries. repeat split; assumption.
Qed.

Lemma Insert_absent_witness :
  exists t',
    Insert TAvlTreeWithSize true 7
      (mkTree (Ptr nullptr (mkNode 5 1 1 1) nullptr) 1) = Some t' /\
    nodes (root_ t') = S (nodes (Ptr nullptr (mkNode 5 1 1 1) nullptr)) /\
    In (7, 1) (entries (root_ t')) /\
    (forall e, In e (entries (Ptr nullptr (mkNode 5 1 1 1) nullptr)) ->
               In e (entries (root_ t'))) /\
    Size t' = to_size_t (Size (mkTree (Ptr nullptr (mkNode 5 1 1 1) nullptr) 1)
                         + 1).
Proof.
  apply (Insert_absent TAvlTreeWithSize true 7
           (mkTree (Ptr nullptr (mkNode 5 1 1 1) nullptr) 1)).
  - simpl. tauto.
  - unfold sane, INT_MAX. simpl. repeat split; lia.
  - reflexivity.
Defined.

Lemma inserts_In ms vs es x :
  In x (map fst (fold_left (fun es o => step_list ms o es)
                           (map OInsert vs) es)) <->
  In x vs \/ In x (map fst es).
Proof.
  revert es. induction vs as [|v vs IH]; intros es; simpl; [tauto|].
  rewrite IH, In_ins_list. intuition.
Qed.

Lemma run_inserts_content cls ms vs t :
  run cls ms (map OInsert vs) empty_tree = Some t ->
  sorted (values (root_ t)) /\
  forall w, In w (values (root_ t)) <-> In w vs.
Proof.
  intros H. split.
  - apply bst_sorted.
    revert H. generalize (map OInsert vs). intros ops.
    assert (G : forall t0, bst (root_ t0) ->
                  run cls ms ops t0 = Some t -> bst (root_ t)).
    { induction ops as [|o ops IH]; intros t0 Hb H.
      - simpl in H. now injection H as <-.
      - apply run_cons in H. destruct H as (t1 & H1 & H2).
        apply (IH t1); [|exact H2].
        now apply (step_entries _ _ _ _ _ Hb H1). }
    apply G. exact I.
  - intros w.
    rewrite values_entries, (run_entries cls ms _ empty_tree t I H).
    rewrite inserts_In. simpl. tauto.
Qed.

Lemma inserts_return cls ms vs :
  Z.of_nat (length vs) <= INT_MAX - 1 ->
  exists t, run cls ms (map OInsert vs) empty_tree = Some t.
Proof.
  induction vs as [|v vs IH] using rev_ind; intros Hlen.
  - exists empty_tree. reflexivity.
  - rewrite length_app in Hlen. cbn [length] in Hlen.
    destruct IH as (t1 & E1); [lia|].
    assert (Hs : sane cls (root_ t1)).
    { apply (reachable_sane cls ms (map OInsert vs)); [|exact E1].
      rewrite length_map. lia. }
    destruct (Insert_returns cls ms v t1 Hs) as (t' & E').
    exists t'. rewrite map_app, run_app, E1. simpl. now rewrite E'.
Qed.

(** X7.  A sequence of at most [INT_MAX - 1] insertions into the empty tree
    returns, and the in-order sequence of values of the tree it builds is
    strictly increasing and holds exactly the values that were inserted,
    whatever their order and repetitions. *)
Theorem inserts_build_the_sorted_set (cls : TreeClass) (ms : bool) vs :
  Z.of_nat (length vs) <= INT_MAX - 1 ->
  exists t,
    run cls ms (map OInsert vs) empty_tree = Some t /\
    sorted (values (root_ t)) /\
    forall w, In w (values (root_ t)) <-> In w vs.
Proof.
  intros Hlen. destruct (inserts_return cls ms vs Hlen) as (t & E).
  exists t. split; [exact E|]. now apply run_inserts_content with (ms := ms)
                                                              (cls := cls).
Qed.

Lemma inserts_build_the_sorted_set_witness :
  exists t,
    run TAvlTree false (map OInsert [3; 1; 3; 2]) empty_tree = Some t /\
    sorted (values (root_ t)) /\
    forall w, In w (values (root_ t)) <-> In w [3; 1; 3; 2].
Proof.
  apply (inserts_build_the_sorted_set TAvlTree false [3; 1; 3; 2]).
  unfold INT_MAX. simpl. lia.
Defined.

Lemma size_t_succ a : to_size_t (to_size_t a + 1) = to_size_t (a + 1).
Proof. unfold to_size_t. now rewrite Z.add_mod_idemp_l by lia. Qed.

Lemma sorted_NoDup l : sorted l -> NoDup l.
Proof.
  induction l as [|a l IH]; simpl; [constructor|].
  intros [Hall Hs]. constructor; [|auto].
  rewrite Forall_forall in Hall. intros Hin. specialize (Hall a Hin). lia.
Qed.

Lemma Insert_size_nodes cls ms v t t' :
  bst (root_ t) -> Insert cls ms v t = Some t' ->
  Size t = to_size_t (Z.of_nat (nodes (root_ t))) ->
  Size t' = to_size_t (Z.of_nat (nodes (root_ t'))).
Proof.
  intros Hb H Hsz. apply Insert_Some in H.
  pose proof (InsertRecursive_entries _ _ _ _ _ _ _ Hb H) as He.
  pose proof (InsertRecursive_size _ _ _ _ _ _ _ H) as Hs'.
  unfold Size in *. rewrite Hs'. rewrite <- (length_entries (root_ t')), He.
  destruct (to_bool (FindRecursive v (root_ t))) eqn:F.
  - rewrite ins_list_present, length_map, length_entries.
    + exact Hsz.
    + rewrite <- values_entries. now apply bst_sorted.
    + rewrite <- values_entries. now apply FindRecursive_In.
  - destruct (ins_list_absent ms v (entries (root_ t))) as (Hlen & _).
    + rewrite <- values_entries. intros Hin.
      apply (FindRecursive_In v _ Hb) in Hin. congruence.
    + rewrite Hlen, length_entries, Hsz, size_t_succ.
      f_equal. lia.
Qed.

(** X8.  As long as nothing is erased, [Size()] is the number of nodes of
    the tree, which is the number of distinct values inserted (as a
    [size_t]); after at least one and fewer than [2^64] insertions
    [Empty()] is false. *)
Theorem Size_counts_distinct_values (cls : TreeClass) (ms : bool) vs t :
  run cls ms (map OInsert vs) empty_tree = Some t ->
  Size t = to_size_t (Z.of_nat (nodes (root_ t))) /\
  nodes (root_ t) = length (nodup Z.eq_dec vs) /\
  (vs <> [] -> Z.of_nat (length vs) < 2 ^ 64 -> Empty t = false).
Proof.
  intros H.
  assert (Hsz : Size t = to_size_t (Z.of_nat (nodes (root_ t)))).
  { clear - H. revert t H.
    induction vs as [|v vs IH] using rev_ind; intros t H.
    - simpl in H. injection H as <-. reflexivity.
    - rewrite map_app, run_app in H. bind_inv H. simpl in H. bind_inv H.
      injection H as <-.
      pose proof (run_inserts_content _ _ _ _ E) as [Hs _].
      apply bst_sorted in Hs.
      eapply Insert_size_nodes; eauto. }
  destruct (run_inserts_content _ _ _ _ H) as [Hs Hin].
  assert (Hn : nodes (root_ t) = length (nodup Z.eq_dec vs)).
  { rewrite <- length_entries. unfold entries. rewrite length_map.
    rewrite <- (length_map value_). fold (values (root_ t)).
    apply Nat.le_antisymm; apply NoDup_incl_length.
    - now apply sorted_NoDup.
    - intros w Hw. apply nodup_In. now apply Hin.
    - apply NoDup_nodup.
    - intros w Hw. apply Hin. now apply nodup_In in Hw. }
  split; [exact Hsz|]. split; [exact Hn|].
  intros Hne Hlen. unfold Empty. unfold Size in Hsz. rewrite Hsz.
  assert (0 < nodes (root_ t))%nat.
  { rewrite Hn. destruct vs as [|v vs']; [congruence|].
    assert (Hv : In v (nodup Z.eq_dec (v :: vs')))
      by (apply nodup_In; now left).
    destruct (nodup Z.eq_dec (v :: vs')); [contradiction|simpl; lia]. }
  assert (nodes (root_ t) <= length vs)%nat.
  { rewrite Hn. apply NoDup_incl_length; [apply NoDup_nodup|].
    intros w Hw. now apply nodup_In in Hw. }
  rewrite to_size_t_small by lia. apply Z.eqb_neq. lia.
Qed.

Lemma Size_counts_distinct_values_witness :
  Size (mkTree (Ptr (Ptr nullptr (mkNode 1 1 1 1) nullptr) (mkNode 3 1 2 1)
                    nullptr) 2) =
  to_size_t (Z.of_nat (nodes (Ptr (Ptr nullptr (mkNode 1 1 1 1) nullptr)
                                  (mkNode 3 1 2 1) nullptr))) /\
  nodes (Ptr (Ptr nullptr (mkNode 1 1 1 1) nullptr) (mkNode 3 1 2 1) nullptr)
  = length (nodup Z.eq_dec [3; 1; 3]) /\
  ([3; 1; 3] <> [] -> Z.of_nat (length [3; 1; 3]) < 2 ^ 64 ->
   Empty (mkTree (Ptr (Ptr nullptr (mkNode 1 1 1 1) nullptr) (mkNode 3 1 2 1)
                      nullptr) 2) = false).
Proof.
  apply (Size_counts_distinct_values TAvlTree false [3; 1; 3]
           (mkTree (Ptr (Ptr nullptr (mkNode 1 1 1 1) nullptr)
                        (mkNode 3 1 2 1) nullptr) 2)).
  vm_compute. reflexivity.
Defined.

(** ** Balance *)

(** X9.  In the two classes that balance, [Insert] into a tree that
    satisfies the AVL invariant (every node balanced, stored heights and,
    in [TAvlTreeWithSize], stored sizes exact) and is lower than [INT_MAX]
    returns a tree that satisfies it; the height stays or grows by one. *)
Theorem Insert_keeps_AvlInvariant (cls : TreeClass) (ms : bool) v t :
  cls <> TSearchTree ->
  AvlInvariant cls (root_ t) -> height (root_ t) < INT_MAX ->
  exists t',
    Insert cls ms v t = Some t' /\ AvlInvariant cls (root_ t') /\
    height (root_ t) <= height (root_ t') <= height (root_ t) + 1.
Proof.
  intros Hcls Ha Hb.
  destruct (InsertRecursive_avl cls ms v _ (size_ t) Hcls Ha Hb)
    as (b & s' & E & Ab & Hh).
  unfold Insert. rewrite E. cbn [bind].
  pose proof (InsertRecursive_not_null _ _ _ _ _ _ _ E) as Hn.
  destruct b as [|bl bn br]; [congruence|].
  eexists. split; [reflexivity|]. split; [exact Ab|exact Hh].
Qed.

Lemma Insert_keeps_AvlInvariant_witness :
  exists t',
    Insert TAvlTreeWithSize false 9
      (mkTree (Ptr nullptr (mkNode 5 1 2 2)
                   (Ptr nullptr (mkNode 7 1 1 1) nullptr)) 2) = Some t' /\
    AvlInvariant TAvlTreeWithSize (root_ t') /\
    height (Ptr nullptr (mkNode 5 1 2 2)
                (Ptr nullptr (mkNode 7 1 1 1) nullptr)) <= height (root_ t')
    <= height (Ptr nullptr (mkNode 5 1 2 2)
                   (Ptr nullptr (mkNode 7 1 1 1) nullptr)) + 1.
Proof.
  apply (Insert_keeps_AvlInvariant TAvlTreeWithSize false 9
           (mkTree (Ptr nullptr (mkNode 5 1 2 2)
                        (Ptr nullptr (mkNode 7 1 1 1) nullptr)) 2)).
  - discriminate.
  - unfold AvlInvariant. simpl. repeat split; try lia; reflexivity.
  - unfold INT_MAX. simpl. lia.
Defined.

Lemma count_nodes p : count p = Z.of_nat (nodes p).
Proof.
  induction p as [|l IHl n r IHr]; simpl; [reflexivity|].
  rewrite IHl, IHr. lia.
Qed.

Lemma balanced_height_log p :
  balanced p -> 2 ^ (height p / 2) <= count p + 1.
Proof.
  induction p as [|l IHl n r IHr]; simpl; [intros _; reflexivity|].
  intros (Bl & Br & Hd). specialize (IHl Bl). specialize (IHr Br).
  pose proof (height_nonneg l). pose proof (height_nonneg r).
  pose proof (count_nodes l). pose proof (count_nodes r).
  set (h := Z.max (height l) (height r) + 1) in *.
  destruct (Z_lt_le_dec h 2) as [Hs|Hs].
  - rewrite Z.div_small by lia. simpl. lia.
  - assert (E : h / 2 = (h - 2) / 2 + 1).
    { replace h with (h - 2 + 1 * 2) at 1 by lia.
      now rewrite Z.div_add by lia. }
    assert (0 <= (h - 2) / 2) by (apply Z.div_pos; lia).
    rewrite E, Z.pow_add_r by lia. change (2 ^ 1) with 2.
    assert (2 ^ ((h - 2) / 2) <= 2 ^ (height l / 2)).
    { apply Z.pow_le_mono_r; [lia|]. apply Z.div_le_mono; lia. }
    assert (2 ^ ((h - 2) / 2) <= 2 ^ (height r / 2)).
    { apply Z.pow_le_mono_r; [lia|]. apply Z.div_le_mono; lia. }
    lia.
Qed.

(** X10.  In the two classes that balance, at most [INT_MAX] insertions
    into the empty tree return a tree that satisfies the AVL invariant and
    whose height is logarithmic in its number of nodes:
    [2 ^ (height / 2) <= nodes + 1]. *)
Theorem inserts_build_a_low_tree (cls : TreeClass) (ms : bool) vs :
  cls <> TSearchTree -> Z.of_nat (length vs) <= INT_MAX ->
  exists t,
    run cls ms (map OInsert vs) empty_tree = Some t /\
    AvlInvariant cls (root_ t) /\
    2 ^ (height (root_ t) / 2) <= Z.of_nat (nodes (root_ t)) + 1.
Proof.
  intros Hcls Hlen.
  destruct (inserts_AvlInvariant cls ms vs empty_tree Hcls)
    as (t & E & A & _).
  - unfold AvlInvariant. simpl. tauto.
  - simpl. lia.
  - exists t. split; [exact E|]. split; [exact A|].
    rewrite <- count_nodes. apply balanced_height_log, A.
Qed.

Lemma inserts_build_a_low_tree_witness :
  exists t,
    run TAvlTree false (map OInsert [1; 2; 3; 4; 5; 6; 7]) empty_tree
    = Some t /\
    AvlInvariant TAvlTree (root_ t) /\
    2 ^ (height (root_ t) / 2) <= Z.of_nat (nodes (root_ t)) + 1.
Proof.
  apply (inserts_build_a_low_tree TAvlTree false [1; 2; 3; 4; 5; 6; 7]).
  - discriminate.
  - unfold INT_MAX. simpl. lia.
Defined.

(** X11.  In [TAvlTreeWithSize], after at most [INT_MAX] calls of [Insert]
    on the empty tree and no [Erase], the subtree size stored in the root is
    [Size()]. *)
Theorem root_size_is_Size (ms : bool) vs t :
  Z.of_nat (length vs) <= INT_MAX ->
  run TAvlTreeWithSize ms (map OInsert vs) empty_tree = Some t ->
  NodeSize (root_ t) = Size t.
Proof.
  intros Hlen H.
  destruct (inserts_AvlInvariant TAvlTreeWithSize ms vs empty_tree)
    as (t' & E & A & _).
  - discriminate.
  - unfold AvlInvariant. simpl. tauto.
  - simpl. lia.
  - rewrite H in E. injection E as <-.
    destruct A as (_ & _ & Hs). specialize (Hs eq_refl).
    rewrite (NodeSize_exact _ Hs), count_nodes.
    symmetry. revert H. clear. revert t.
    induction vs as [|v vs IH] using rev_ind; intros t H.
    + simpl in H. injection H as <-. reflexivity.
    + rewrite map_app, run_app in H. bind_inv H. simpl in H. bind_inv H.
      injection H as <-.
      pose proof (run_inserts_content _ _ _ _ E) as [Hs _].
      apply bst_sorted in Hs.
      eapply Insert_size_nodes; eauto.
Qed.

Lemma root_size_is_Size_witness :
  NodeSize (Ptr (Ptr nullptr (mkNode 1 1 1 1) nullptr) (mkNode 2 1 2 3)
                (Ptr nullptr (mkNode 3 1 1 1) nullptr)) =
  Size (mkTree (Ptr (Ptr nullptr (mkNode 1 1 1 1) nullptr) (mkNode 2 1 2 3)
                    (Ptr nullptr (mkNode 3 1 1 1) nullptr)) 3).
Proof.
  apply (root_size_is_Size false [1; 2; 3; 2]
           (mkTree (Ptr (Ptr nullptr (mkNode 1 1 1 1) nullptr)
                        (mkNode 2 1 2 3)
                        (Ptr nullptr (mkNode 3 1 1 1) nullptr)) 3)).
  - unfold INT_MAX. simpl. lia.
  - vm_compute. reflexivity.
Defined.

(** X12.  The rebalancing hook, with its single and double rotations,
    returns on a node whose subtrees have sane stored heights, and the
    subtree it returns has the same in-order sequence of (value, count)
    pairs and the same number of nodes. *)
Theorem Balance_keeps_content (cls : TreeClass) l n r :
  heights_ok l -> heights_ok r ->
  NodeHeight l < INT_MAX -> NodeHeight r < INT_MAX ->
  exists b,
    Balance cls (Ptr l n r) = Some b /\
    entries b = entries (Ptr l n r) /\
    nodes b = nodes (Ptr l n r).
Proof.
  intros Hl Hr Bl Br.
  assert (H : exists b, Balance cls (Ptr l n r) = Some b).
  { destruct cls; [simpl; eauto| |].
    - destruct (BalanceNode_sane TAvlTree l n r Hl Hr Bl Br) as (b & E & _).
      unfold Balance. eauto.
    - destruct (BalanceNode_sane TAvlTreeWithSize l n r Hl Hr Bl Br)
        as (b & E & _).
      unfold Balance. eauto. }
  destruct H as (b & E). exists b. split; [exact E|].
  apply entries_Balance in E. split; [exact E|].
  now rewrite <- !length_entries, E.
Qed.

Lemma Balance_keeps_content_witness :
  exists b,
    Balance TAvlTree
      (Ptr nullptr (mkNode 1 1 2 1)
           (Ptr nullptr (mkNode 2 1 2 1)
                (Ptr nullptr (mkNode 3 1 1 1) nullptr))) = Some b /\
    entries b =
      entries (Ptr nullptr (mkNode 1 1 2 1)
                   (Ptr nullptr (mkNode 2 1 2 1)
                        (Ptr nullptr (mkNode 3 1 1 1) nullptr))) /\
    nodes b =
      nodes (Ptr nullptr (mkNode 1 1 2 1)
                 (Ptr nullptr (mkNode 2 1 2 1)
                      (Ptr nullptr (mkNode 3 1 1 1) nullptr))).
Proof.
  apply (Balance_keeps_content TAvlTree nullptr (mkNode 1 1 2 1)
           (Ptr nullptr (mkNode 2 1 2 1)
                (Ptr nullptr (mkNode 3 1 1 1) nullptr))).
  - exact I.
  - simpl. repeat split; lia.
  - unfold INT_MAX. simpl. lia.
  - unfold INT_MAX. simpl. lia.
Defined.

Lemma heights_ok_height p : heights_ok p -> height p <= NodeHeight p.
Proof.
  induction p as [|l IHl n r IHr]; simpl; [lia|].
  intros (Hl & Hr & H). specialize (IHl Hl). specialize (IHr Hr). lia.
Qed.

(** X13.  In the two classes that balance, after at most [INT_MAX] calls of
    [Insert] and [Erase] on the empty tree, the stored height of every node
    is at least one more than the stored heights of its children, so it
    never underestimates the height of its subtree, and the stored height
    of the root is at most the number of calls. *)
Theorem stored_heights_bound (cls : TreeClass) (ms : bool) ops t :
  cls <> TSearchTree -> Z.of_nat (length ops) <= INT_MAX ->
  run cls ms ops empty_tree = Some t ->
  heights_ok (root_ t) /\
  height (root_ t) <= NodeHeight (root_ t) <= Z.of_nat (length ops).
Proof.
  intros Hcls Hlen H.
  destruct (run_sane cls ms ops empty_tree t Hcls I) as [Ok Hh];
    [simpl; lia|exact H|].
  split; [exact Ok|]. split; [now apply heights_ok_height|exact Hh].
Qed.

Lemma stored_heights_bound_witness :
  heights_ok (Ptr nullptr (mkNode 2 1 3 1)
                  (Ptr nullptr (mkNode 3 1 2 1)
                       (Ptr nullptr (mkNode 4 1 1 1) nullptr))) /\
  height (Ptr nullptr (mkNode 2 1 3 1)
              (Ptr nullptr (mkNode 3 1 2 1)
                   (Ptr nullptr (mkNode 4 1 1 1) nullptr))) <=
  NodeHeight (Ptr nullptr (mkNode 2 1 3 1)
                  (Ptr nullptr (mkNode 3 1 2 1)
                       (Ptr nullptr (mkNode 4 1 1 1) nullptr))) <=
  Z.of_nat (length [OInsert 2; OInsert 1; OInsert 3; OInsert 4; OErase 1]).
Proof.
  apply (stored_heights_bound TAvlTree false
           [OInsert 2; OInsert 1; OInsert 3; OInsert 4; OErase 1]
           (mkTree (Ptr nullptr (mkNode 2 1 3 1)
                        (Ptr nullptr (mkNode 3 1 2 1)
                             (Ptr nullptr (mkNode 4 1 1 1) nullptr))) 4)).
  - discriminate.
  - unfold INT_MAX. simpl. lia.
  - vm_compute. reflexivity.
Defined.

(** ** Occurrence counts in multiset mode *)

Lemma In_ins_list_absent ms v es e :
  ~ In v (map fst es) ->
  In e (ins_list ms v es) -> e = (v, 1) \/ In e es.
Proof.
  induction es as [|a es IH]; simpl.
  - intuition.
  - intros Hn.
    destruct (Z.eqb_spec (fst a) v) as [E|N]; [tauto|].
    destruct (fst a >? v); simpl; [intuition|].
    intros [<-|H]; [tauto|]. destruct IH; tauto.
Qed.

(** X14.  In multiset mode, as long as nothing is erased and fewer than
    [2^64] values were inserted, the occurrence count of every node is the
    number of times its value was inserted. *)
Theorem multiset_counts_insertions (cls : TreeClass) vs t :
  Z.of_nat (length vs) < 2 ^ 64 ->
  run cls true (map OInsert vs) empty_tree = Some t ->
  forall v c,
    In (v, c) (entries (root_ t)) ->
    c = Z.of_nat (count_occ Z.eq_dec vs v).
Proof.
  revert t. induction vs as [|v0 vs IH] using rev_ind; intros t Hlen H v c.
  - simpl in H. injection H as <-. simpl. contradiction.
  - rewrite map_app, run_app in H. bind_inv H. simpl in H. bind_inv H.
    injection H as <-.
    rewrite length_app in Hlen. cbn [length] in Hlen.
    specialize (IH t0 ltac:(lia) eq_refl).
    destruct (run_inserts_content _ _ _ _ E) as [Hs Hmem].
    pose proof Hs as Hb. apply bst_sorted in Hb.
    apply Insert_Some in E0.
    rewrite (InsertRecursive_entries _ _ _ _ _ _ _ Hb E0).
    rewrite count_occ_app. simpl count_occ.
    destruct (in_dec Z.eq_dec v0 (values (root_ t0))) as [Hin|Hout].
    + rewrite ins_list_present;
        [|now rewrite <- values_entries..].
      intros Hc. apply in_map_iff in Hc. destruct Hc as ([w d] & Eq & Hw).
      simpl in Eq. specialize (IH w d Hw).
      pose proof (count_occ_bound Z.eq_dec w vs).
      destruct (Z.eqb_spec w v0) as [->|N].
      * unfold bump in Eq. simpl in Eq. injection Eq as <- <-.
        destruct (Z.eq_dec v0 v0); [|congruence].
        rewrite IH, to_size_t_small by lia. lia.
      * injection Eq as <- <-.
        destruct (Z.eq_dec v0 w); [congruence|]. rewrite IH. lia.
    + intros Hc. apply In_ins_list_absent in Hc;
        [|now rewrite <- values_entries].
      destruct Hc as [Eq|Hw].
      * injection Eq as -> ->.
        destruct (Z.eq_dec v0 v0); [|congruence].
        assert (count_occ Z.eq_dec vs v0 = 0%nat) as ->.
        { apply count_occ_not_In. intros Hv. apply Hout, Hmem, Hv. }
        reflexivity.
      * specialize (IH v c Hw).
        destruct (Z.eq_dec v0 v) as [->|N]; [|rewrite IH; lia].
        exfalso. apply Hout. rewrite values_entries.
        change v with (fst (v, c)). now apply in_map.
Qed.

Lemma multiset_counts_insertions_witness :
  3 = Z.of_nat (count_occ Z.eq_dec [7; 5; 7; 7] 7).
Proof.
  apply (multiset_counts_insertions TAvlTree [7; 5; 7; 7]
           (mkTree (Ptr (Ptr nullptr (mkNode 5 1 1 1) nullptr)
                        (mkNode 7 3 2 1) nullptr) 2)).
  - simpl. lia.
  - vm_compute. reflexivity.
  - simpl. tauto.
Defined.

(** ** The command processor *)

Lemma least_spec l :
  match least l with
  | None => l = []
  | Some m => In m l /\ forall w, In w l -> m <= w
  end.
Proof.
  induction l as [|a l IH]; simpl; [reflexivity|].
  destruct (least l) as [b|].
  - destruct IH as [Hb Hmin]. split.
    + destruct (Z.min_spec a b) as [[_ ->]|[_ ->]]; auto.
    + intros w [<-|Hw]; [lia|]. specialize (Hmin w Hw). lia.
  - subst l. split; [now left|]. intros w [<-|[]]. lia.
Qed.

Lemma greatest_spec l :
  match greatest l with
  | None => l = []
  | Some m => In m l /\ forall w, In w l -> w <= m
  end.
Proof.
  induction l as [|a l IH]; simpl; [reflexivity|].
  destruct (greatest l) as [b|].
  - destruct IH as [Hb Hmax]. split.
    + destruct (Z.max_spec a b) as [[_ ->]|[_ ->]]; auto.
    + intros w [<-|Hw]; [lia|]. specialize (Hmax w Hw). lia.
  - subst l. split; [now left|]. intros w [<-|[]]. lia.
Qed.

Lemma print_Next x t l :
  bst (root_ t) -> (forall w, In w (values (root_ t)) <-> In w l) ->
  print_iterator (Next x t) =
  Some (print_option (least (filter (fun w => x <? w) l))).
Proof.
  intros Hb Hmem.
  pose proof (NextLoop_spec x (root_ t) nullptr Hb (Forall_nil _)) as H.
  simpl in H. rewrite app_nil_r in H. fold (Next x t) in H.
  pose proof (least_spec (filter (fun w => x <? w) l)) as Hl.
  unfold print_iterator.
  destruct (Next x t) as [|a m b]; unfold least_above in H;
    cbn [IsValid to_bool deref bind].
  - destruct (least (filter (fun w => x <? w) l)) as [m'|]; [|reflexivity].
    destruct Hl as [Hin _]. apply filter_In in Hin. destruct Hin as [Hin Hx].
    apply Z.ltb_lt in Hx. apply Hmem, H in Hin. lia.
  - destruct H as (Hin & Hx & Hmin).
    assert (Hf : In (value_ m) (filter (fun w => x <? w) l)).
    { apply filter_In. split; [now apply Hmem|now apply Z.ltb_lt]. }
    destruct (least (filter (fun w => x <? w) l)) as [m'|].
    + destruct Hl as [Hin' Hmin']. specialize (Hmin' _ Hf).
      apply filter_In in Hin'. destruct Hin' as [Hin' Hx'].
      apply Z.ltb_lt in Hx'. apply Hmem in Hin'.
      specialize (Hmin _ Hin' Hx'). simpl. do 3 f_equal. lia.
    + rewrite Hl in Hf. contradiction.
Qed.

Lemma print_Prev x t l :
  bst (root_ t) -> (forall w, In w (values (root_ t)) <-> In w l) ->
  print_iterator (Prev x t) =
  Some (print_option (greatest (filter (fun w => w <? x) l))).
Proof.
  intros Hb Hmem.
  pose proof (PrevLoop_spec x (root_ t) nullptr Hb (Forall_nil _)) as H.
  simpl in H. rewrite app_nil_r in H. fold (Prev x t) in H.
  pose proof (greatest_spec (filter (fun w => w <? x) l)) as Hl.
  unfold print_iterator.
  destruct (Prev x t) as [|a m b]; unfold greatest_below in H;
    cbn [IsValid to_bool deref bind].
  - destruct (greatest (filter (fun w => w <? x) l)) as [m'|]; [|reflexivity].
    destruct Hl as [Hin _]. apply filter_In in Hin. destruct Hin as [Hin Hx].
    apply Z.ltb_lt in Hx. apply Hmem, H in Hin. lia.
  - destruct H as (Hin & Hx & Hmax).
    assert (Hf : In (value_ m) (filter (fun w => w <? x) l)).
    { apply filter_In. split; [now apply Hmem|now apply Z.ltb_lt]. }
    destruct (greatest (filter (fun w => w <? x) l)) as [m'|].
    + destruct Hl as [Hin' Hmax']. specialize (Hmax' _ Hf).
      apply filter_In in Hin'. destruct Hin' as [Hin' Hx'].
      apply Z.ltb_lt in Hx'. apply Hmem in Hin'.
      specialize (Hmax _ Hin' Hx'). simpl. do 3 f_equal. lia.
    + rewrite Hl in Hf. contradiction.
Qed.

Lemma main2_command_refines s x t l :
  same_values t l -> NodeHeight (root_ t) < INT_MAX ->
  match main2_command s x t, set_command s x l with
  | Some (t', out), Some (l', out') =>
      out = out' /\ same_values t' l' /\
      NodeHeight (root_ t') <= NodeHeight (root_ t) + 1
  | None, None => True
  | _, _ => False
  end.
Proof.
  intros (Hb & Hok & Hmem) Hh.
  unfold main2_command, set_command.
  destruct (String.eqb s "insert").
  { destruct (InsertRecursive_sane TAvlTree false x (root_ t) (size_ t)
                ltac:(discriminate) Hok Hh) as (b & s' & E & Ok & Hhb).
    unfold Insert. rewrite E. cbn [bind].
    pose proof (InsertRecursive_not_null _ _ _ _ _ _ _ E) as Hn.
    destruct b as [|bl bn br]; [congruence|]. cbn [bind].
    split; [reflexivity|]. split; [|exact Hhb].
    split; [eapply bst_InsertRecursive; eassumption|]. split; [exact Ok|].
    intros w. simpl root_.
    rewrite values_entries, (InsertRecursive_entries _ _ _ _ _ _ _ Hb E).
    rewrite In_ins_list, <- values_entries, Hmem. simpl. intuition. }
  destruct (String.eqb s "delete").
  { pose proof (EraseRecursive_entries x _ Hb) as He.
    assert (Hmem' : forall w, In w (values (EraseRecursive x (root_ t))) <->
                              In w (filter (fun w => negb (w =? x)) l)).
    { intros w. rewrite values_entries, He, In_del_list, filter_In.
      rewrite <- values_entries, Hmem.
      destruct (Z.eqb_spec w x); simpl; intuition congruence. }
    unfold Erase.
    destruct (EraseRecursive x (root_ t)) as [|bl bn br] eqn:E; cbn [bind].
    - destruct (filter (fun w => negb (w =? x)) l) as [|a l']; [exact I|].
      apply (proj2 (Hmem' a)). now left.
    - destruct (filter (fun w => negb (w =? x)) l) as [|a l'] eqn:F.
      + apply (proj1 (Hmem' (value_ bn))).
        rewrite values_Ptr, in_app_iff. simpl. tauto.
      + split; [reflexivity|].
        destruct (heights_EraseRecursive x _ Hok) as [Ok' Hh'].
        rewrite E in Ok', Hh'. simpl root_. split; [|lia].
        split; [|split; [exact Ok'|exact Hmem']].
        rewrite <- E. now apply bst_EraseRecursive. }
  destruct (String.eqb s "exists").
  { split; [|split; [exact (conj Hb (conj Hok Hmem))|lia]].
    do 2 f_equal.
    assert (Exsist x t = existsb (fun w => w =? x) l) as ->; [|reflexivity].
    apply bool_eq_iff.
    rewrite (Exsist_In x t Hb), Hmem, existsb_exists. split.
    - intros Hin. exists x. split; [assumption|apply Z.eqb_refl].
    - intros (w & Hin & E). apply Z.eqb_eq in E. now subst. }
  destruct (String.eqb s "next").
  { rewrite (print_Next x t l Hb Hmem). cbn [bind].
    split; [reflexivity|]. split; [exact (conj Hb (conj Hok Hmem))|lia]. }
  destruct (String.eqb s "prev").
  { rewrite (print_Prev x t l Hb Hmem). cbn [bind].
    split; [reflexivity|]. split; [exact (conj Hb (conj Hok Hmem))|lia]. }
  split; [reflexivity|]. split; [exact (conj Hb (conj Hok Hmem))|lia].
Qed.

Lemma main2_loop_refines input :
  forall t l,
    same_values t l ->
    NodeHeight (root_ t) + Z.of_nat (length input) <= INT_MAX ->
    main2_loop input t = set_loop input l.
Proof.
  induction input as [|[s x] rest IH]; intros t l HR Hh; [reflexivity|].
  cbn [length] in Hh. rewrite Nat2Z.inj_succ in Hh.
  pose proof (main2_command_refines s x t l HR ltac:(lia)) as Hc.
  cbn [main2_loop set_loop].
  destruct (main2_command s x t) as [[t' out]|];
    destruct (set_command s x l) as [[l' out']|]; try contradiction;
    [|reflexivity].
  destruct Hc as (-> & HR' & Hh'). cbn [bind].
  rewrite (IH t' l' HR') by lia. reflexivity.
Qed.

(** X15.  On at most [INT_MAX] commands, [main2] writes what the same
    commands write on a plain list of the values present: [exists] answers
    by membership, [next] and [prev] print the least value above and the
    greatest value below their argument or [none], unknown commands do
    nothing; and [main2] has no defined result exactly when a [delete]
    leaves no value. *)
Theorem main2_refines_set (input : list (string * Z)) :
  Z.of_nat (length input) <= INT_MAX ->
  main2 input = set_loop input [].
Proof.
  intros Hlen. apply main2_loop_refines.
  - split; [exact I|]. split; [exact I|]. simpl. tauto.
  - simpl. lia.
Qed.

Lemma main2_refines_set_witness :
  main2 [("insert", 5); ("insert", 9); ("next", 5); ("prev", 5);
         ("exists", 9); ("delete", 9); ("exists", 9); ("skip", 0)]%string
  = Some [Number 9; Text "none"; Text "true"; Text "false"].
Proof.
  rewrite (main2_refines_set
             [("insert", 5); ("insert", 9); ("next", 5); ("prev", 5);
              ("exists", 9); ("delete", 9); ("exists", 9); ("skip", 0)]%string).
  - reflexivity.
  - unfold INT_MAX. simpl. lia.
Defined.

(** ** Walking iterators *)

Lemma inorder_whole node up :
  inorder (whole node up) =
  passed_above up ++ inorder node ++ ahead_above up.
Proof.
  revert node. induction up as [|f up IH]; intros node; simpl.
  - now rewrite app_nil_r.
  - rewrite IH. destruct f as [n r|l n]; simpl.
    + now rewrite <- !app_assoc.
    + now rewrite <- !app_assoc.
Qed.

(** [FindMinIt] stops on the first node of the subtree it is given. *)
Lemma FindMinIt_spec l n r up :
  exists m mr up',
    FindMinIt (Ptr l n r) up = mkIt (Ptr nullptr m mr) up' /\
    whole (Ptr nullptr m mr) up' = whole (Ptr l n r) up /\
    passed_above up' = passed_above up /\
    m :: inorder mr ++ ahead_above up' =
      inorder (Ptr l n r) ++ ahead_above up.
Proof.
  revert n r up. induction l as [|ll IHl ln lr _]; intros n r up.
  - exists n, r, up. repeat split.
  - destruct (IHl ln lr (LeftSonOf n r :: up)) as (m & mr & up' & E & W & P & A).
    exists m, mr, up'. split; [exact E|]. split; [exact W|].
    split; [exact P|]. rewrite A. simpl. now rewrite <- !app_assoc.
Qed.

(** [FindMaxIt] stops on the last node of the subtree it is given. *)
Lemma FindMaxIt_spec l n r up :
  exists ml m up',
    FindMaxIt (Ptr l n r) up = mkIt (Ptr ml m nullptr) up' /\
    whole (Ptr ml m nullptr) up' = whole (Ptr l n r) up /\
    ahead_above up' = ahead_above up /\
    passed_above up' ++ inorder ml ++ [m] =
      passed_above up ++ inorder (Ptr l n r).
Proof.
  revert l n up. induction r as [|rl _ rn rr IHr]; intros l n up.
  - exists l, n, up. repeat split.
  - destruct (IHr rl rn (RightSonOf l n :: up))
      as (ml & m & up' & E & W & A & P).
    exists ml, m, up'. split; [exact E|]. split; [exact W|].
    split; [exact A|]. rewrite P. simpl. now rewrite <- !app_assoc.
Qed.

(** Climbing while the node is a right son keeps what is ahead and ends
    on a node that is not a right son. *)
Lemma climb_while_right_son_spec node up :
  let top := climb_while_right_son node up in
  IsRightSon (parents top) = false /\
  whole (node_ptr top) (parents top) = whole node up /\
  ahead_above (parents top) = ahead_above up /\
  passed_above (parents top) ++ inorder (node_ptr top) =
    passed_above up ++ inorder node.
Proof.
  revert node. induction up as [|f up IH]; intros node.
  - simpl. repeat split.
  - destruct f as [n r|l n].
    + simpl. repeat split.
    + specialize (IH (Ptr l n node)). cbn zeta in IH.
      destruct IH as (H1 & H2 & H3 & H4).
      simpl. repeat split; trivial.
      rewrite H4. simpl. now rewrite <- !app_assoc.
Qed.

Lemma climb_while_left_son_spec node up :
  let top := climb_while_left_son node up in
  IsLeftSon (parents top) = false /\
  whole (node_ptr top) (parents top) = whole node up /\
  passed_above (parents top) = passed_above up /\
  inorder (node_ptr top) ++ ahead_above (parents top) =
    inorder node ++ ahead_above up.
Proof.
  revert node. induction up as [|f up IH]; intros node.
  - simpl. repeat split.
  - destruct f as [n r|l n].
    + specialize (IH (Ptr node n r)). cbn zeta in IH.
      destruct IH as (H1 & H2 & H3 & H4).
      simpl. repeat split; trivial.
      rewrite H4. simpl. now rewrite <- !app_assoc.
    + simpl. repeat split.
Qed.

Lemma increment_spec l n r up :
  exists it',
    increment (mkIt (Ptr l n r) up) = Some it' /\
    ahead it' = inorder r ++ ahead_above up /\
    match node_ptr it' with
    | nullptr => it' = EndIt
    | Ptr _ _ _ =>
        passed it' = (passed_above up ++ inorder l) ++ [n] /\
        whole (node_ptr it') (parents it') = whole (Ptr l n r) up
    end.
Proof.
  unfold increment. cbn [node_ptr parents].
  destruct r as [|rl rn rr].
  - pose proof (climb_while_right_son_spec (Ptr l n nullptr) up) as H.
    cbn zeta in H. destruct H as (Hs & Hw & Ha & Hp).
    destruct (climb_while_right_son (Ptr l n nullptr) up) as [top tup].
    cbn [node_ptr parents] in *.
    eexists. split; [reflexivity|].
    destruct tup as [|[pn pr|pl pn] tup]; [| |discriminate].
    + simpl in *. rewrite <- Ha. repeat split.
    + unfold parent_lock, ahead, passed. cbn [plug node_ptr parents].
      simpl in Ha, Hp, Hw. rewrite <- Ha. split; [reflexivity|].
      split; [|exact Hw].
      rewrite Hp. simpl. now rewrite <- !app_assoc.
  - destruct (FindMinIt_spec rl rn rr (RightSonOf l n :: up))
      as (m & mr & up' & E & W & P & A).
    rewrite E. eexists. split; [reflexivity|].
    unfold ahead, passed. cbn [node_ptr parents].
    split; [exact A|]. split; [|exact W].
    rewrite P. simpl. now rewrite app_nil_r, <- !app_assoc.
Qed.

Lemma decrement_spec l n r up :
  exists it',
    decrement (mkIt (Ptr l n r) up) = Some it' /\
    match node_ptr it' with
    | nullptr => it' = EndIt /\ passed_above up ++ inorder l = []
    | Ptr ml m mr =>
        passed it' ++ [m] = passed_above up ++ inorder l /\
        ahead it' = m :: n :: inorder r ++ ahead_above up /\
        whole (node_ptr it') (parents it') = whole (Ptr l n r) up
    end.
Proof.
  unfold decrement. cbn [node_ptr parents].
  destruct l as [|ll ln lr].
  - pose proof (climb_while_left_son_spec (Ptr nullptr n r) up) as H.
    cbn zeta in H. destruct H as (Hs & Hw & Hp & Ha).
    destruct (climb_while_left_son (Ptr nullptr n r) up) as [top tup].
    cbn [node_ptr parents] in *.
    eexists. split; [reflexivity|].
    destruct tup as [|[pn pr|pl pn] tup]; [|discriminate|].
    + simpl in *. rewrite <- Hp. split; reflexivity.
    + unfold parent_lock, ahead, passed. cbn [plug node_ptr parents].
      simpl in Ha, Hp, Hw. rewrite <- Hp. rewrite app_nil_r.
      split; [now rewrite <- app_assoc|]. split; [|exact Hw].
      simpl in Ha. rewrite Ha. reflexivity.
  - destruct (FindMaxIt_spec ll ln lr (LeftSonOf n r :: up))
      as (ml & m & up' & E & W & A & P).
    rewrite E. eexists. split; [reflexivity|].
    unfold ahead, passed. cbn [node_ptr parents].
    split; [|split; [|exact W]].
    + rewrite <- app_assoc. exact P.
    + rewrite A. reflexivity.
Qed.

Lemma advance_last k it :
  advance (S k) it = (it' <- advance k it ;; increment it').
Proof.
  revert it. induction k as [|k IH]; intros it.
  - simpl. destruct (increment it); reflexivity.
  - change (advance (S (S k)) it)
      with (it1 <- increment it ;; advance (S k) it1).
    change (advance (S k) it) with (it1 <- increment it ;; advance k it1).
    destruct (increment it) as [it1|]; simpl; [apply IH|reflexivity].
Qed.

Lemma tl_skipn {A : Type} k (l : list A) : tl (skipn k l) = skipn (S k) l.
Proof.
  revert l. induction k as [|k IH]; intros [|a l]; simpl; trivial.
Qed.

Lemma length_inorder p : length (inorder p) = nodes p.
Proof. rewrite <- length_entries. unfold entries. now rewrite length_map. Qed.

(** The node [BeginIt] stops on is the one [Begin] returns. *)
Lemma node_ptr_FindMinIt p up : node_ptr (FindMinIt p up) = FindMin p.
Proof.
  revert up. induction p as [|l IHl n r _]; intros up; [reflexivity|].
  destruct l as [|ll ln lr]; [reflexivity|].
  change (FindMinIt (Ptr (Ptr ll ln lr) n r) up)
    with (FindMinIt (Ptr ll ln lr) (LeftSonOf n r :: up)).
  rewrite IHl. reflexivity.
Qed.

Lemma node_ptr_FindMaxIt p up : node_ptr (FindMaxIt p up) = FindMax p.
Proof.
  revert up. induction p as [|l _ n r IHr]; intros up; [reflexivity|].
  destruct r as [|rl rn rr]; [reflexivity|].
  change (FindMaxIt (Ptr l n (Ptr rl rn rr)) up)
    with (FindMaxIt (Ptr rl rn rr) (RightSonOf l n :: up)).
  rewrite IHr. reflexivity.
Qed.

Lemma advance_from_Begin t k :
  (k <= nodes (root_ t))%nat ->
  exists it,
    advance k (BeginIt t) = Some it /\
    ahead it = skipn k (inorder (root_ t)) /\
    (node_ptr it = nullptr -> it = EndIt).
Proof.
  induction k as [|k IH]; intros Hk.
  - exists (BeginIt t). split; [reflexivity|]. unfold BeginIt.
    destruct (root_ t) as [|l n r]; [simpl; tauto|].
    destruct (FindMinIt_spec l n r []) as (m & mr & up' & E & _ & _ & A).
    rewrite E. unfold ahead. cbn [node_ptr parents].
    split; [|discriminate]. simpl in A. now rewrite app_nil_r in A.
  - destruct IH as (it & E & Ha & _); [lia|].
    rewrite advance_last, E. cbn [bind].
    assert (Hne : skipn k (inorder (root_ t)) <> []).
    { intros Hnil. apply (f_equal (@length _)) in Hnil.
      rewrite length_skipn, length_inorder in Hnil. simpl in Hnil. lia. }
    destruct it as [[|l n r] up]; [unfold ahead in Ha; simpl in Ha; congruence|].
    destruct (increment_spec l n r up) as (it' & E' & Ha' & Hm).
    exists it'. split; [exact E'|]. split.
    + rewrite <- tl_skipn, <- Ha, Ha'. reflexivity.
    + intros Hnull. rewrite Hnull in Hm. exact Hm.
Qed.

(** X16.  Starting from [Begin()] and applying [++] [k] times, for [k] up
    to the number of nodes, is defined; the iterator then points to the
    [k]-th node of the in-order sequence and has exactly the rest of that
    sequence ahead, and after as many steps as there are nodes it is the
    end iterator.  One more [++] dereferences the null pointer. *)
Theorem iteration_is_inorder t k :
  (k <= nodes (root_ t))%nat ->
  node_ptr (BeginIt t) = Begin t /\
  (exists it,
     advance k (BeginIt t) = Some it /\
     map value_ (ahead it) = skipn k (values (root_ t)) /\
     deref (node_ptr it) = nth_error (values (root_ t)) k /\
     (k = nodes (root_ t) -> it = EndIt)) /\
  advance (S (nodes (root_ t))) (BeginIt t) = None.
Proof.
  intros Hk. split; [apply node_ptr_FindMinIt|]. split.
  - destruct (advance_from_Begin t k Hk) as (it & E & Ha & Hnull).
    exists it. split; [exact E|].
    assert (Hv : map value_ (ahead it) = skipn k (values (root_ t))).
    { rewrite Ha. unfold values. now rewrite skipn_map. }
    split; [exact Hv|]. split.
    + rewrite <- (firstn_skipn k (values (root_ t))) at 1.
      rewrite nth_error_app2 by (rewrite length_firstn; lia).
      rewrite length_firstn, <- Hv.
      unfold values. rewrite length_map, length_inorder.
      replace (k - Nat.min k (nodes (root_ t)))%nat with 0%nat by lia.
      unfold ahead. destruct (node_ptr it); reflexivity.
    + intros ->. apply Hnull.
      rewrite <- length_inorder, skipn_all in Ha.
      unfold ahead in Ha. now destruct (node_ptr it).
  - destruct (advance_from_Begin t (nodes (root_ t)) (le_n _))
      as (it & E & Ha & Hnull).
    rewrite advance_last, E. cbn [bind].
    rewrite <- length_inorder, skipn_all in Ha.
    unfold ahead in Ha. unfold increment.
    now destruct (node_ptr it).
Qed.

Lemma iteration_is_inorder_witness :
  node_ptr (BeginIt (mkTree (Ptr (Ptr nullptr (mkNode 1 1 1 1) nullptr)
                                 (mkNode 2 1 2 3)
                                 (Ptr nullptr (mkNode 3 1 1 1) nullptr)) 3))
  = Begin (mkTree (Ptr (Ptr nullptr (mkNode 1 1 1 1) nullptr)
                       (mkNode 2 1 2 3)
                       (Ptr nullptr (mkNode 3 1 1 1) nullptr)) 3) /\
  (exists it,
     advance 1 (BeginIt (mkTree (Ptr (Ptr nullptr (mkNode 1 1 1 1) nullptr)
                                     (mkNode 2 1 2 3)
                                     (Ptr nullptr (mkNode 3 1 1 1) nullptr))
                                3)) = Some it /\
     map value_ (ahead it) = skipn 1 [1; 2; 3] /\
     deref (node_ptr it) = nth_error [1; 2; 3] 1 /\
     (1%nat = 3%nat -> it = EndIt)) /\
  advance 4 (BeginIt (mkTree (Ptr (Ptr nullptr (mkNode 1 1 1 1) nullptr)
                                  (mkNode 2 1 2 3)
                                  (Ptr nullptr (mkNode 3 1 1 1) nullptr)) 3))
  = None.
Proof.
  apply (iteration_is_inorder
           (mkTree (Ptr (Ptr nullptr (mkNode 1 1 1 1) nullptr)
                        (mkNode 2 1 2 3)
                        (Ptr nullptr (mkNode 3 1 1 1) nullptr)) 3) 1).
  simpl. lia.
Defined.

(** X17.  [--] on an iterator that points to a node is defined: it moves to
    the node just before in the in-order sequence of the same tree, and
    from the first node it gives the end iterator.  On the end iterator
    [--] and [++] dereference the null pointer. *)
Theorem decrement_steps_back l n r up :
  (exists it',
     decrement (mkIt (Ptr l n r) up) = Some it' /\
     (passed (mkIt (Ptr l n r) up) = [] -> it' = EndIt) /\
     (forall pre m,
        passed (mkIt (Ptr l n r) up) = pre ++ [m] ->
        passed it' = pre /\
        ahead it' = m :: ahead (mkIt (Ptr l n r) up) /\
        whole (node_ptr it') (parents it') = whole (Ptr l n r) up)) /\
  decrement EndIt = None /\ increment EndIt = None.
Proof.
  split; [|split; reflexivity].
  destruct (decrement_spec l n r up) as (it' & E & Hm).
  exists it'. split; [exact E|].
  unfold passed at 1 2. unfold ahead at 2. cbn [node_ptr parents].
  destruct (node_ptr it') as [|ml m mr] eqn:Hn.
  - destruct Hm as [-> Hp]. split; [reflexivity|].
    intros pre m0 Hpre. rewrite Hp in Hpre. now destruct pre.
  - destruct Hm as (Hp & Ha & Hw). split.
    + intros Hnil. rewrite Hnil in Hp. now destruct (passed it').
    + intros pre m0 Hpre. rewrite Hpre in Hp.
      apply app_inj_tail in Hp. destruct Hp as [-> ->].
      repeat split; assumption.
Qed.

Lemma decrement_steps_back_witness :
  exists it',
    decrement (mkIt (Ptr nullptr (mkNode 3 1 1 1) nullptr)
                    [RightSonOf (Ptr nullptr (mkNode 1 1 1 1) nullptr)
                                (mkNode 2 1 2 3)]) = Some it' /\
    passed it' = [mkNode 1 1 1 1] /\
    ahead it' = [mkNode 2 1 2 3; mkNode 3 1 1 1].
Proof.
  destruct (proj1 (decrement_steps_back nullptr (mkNode 3 1 1 1) nullptr
                     [RightSonOf (Ptr nullptr (mkNode 1 1 1 1) nullptr)
                                 (mkNode 2 1 2 3)]))
    as (it' & E & _ & H).
  exists it'. split; [exact E|].
  destruct (H [mkNode 1 1 1 1] (mkNode 2 1 2 3) eq_refl) as (Hp & Ha & _).
  split; [exact Hp|exact Ha].
Defined.

Lemma climb_left_FindMinIt l n r up :
  climb_while_left_son (node_ptr (FindMinIt (Ptr l n r) up))
                       (parents (FindMinIt (Ptr l n r) up)) =
  climb_while_left_son (Ptr l n r) up.
Proof.
  revert n r up. induction l as [|ll IHl ln lr _]; intros n r up.
  - reflexivity.
  - change (FindMinIt (Ptr (Ptr ll ln lr) n r) up)
      with (FindMinIt (Ptr ll ln lr) (LeftSonOf n r :: up)).
    rewrite IHl. reflexivity.
Qed.

Lemma climb_right_FindMaxIt l n r up :
  climb_while_right_son (node_ptr (FindMaxIt (Ptr l n r) up))
                        (parents (FindMaxIt (Ptr l n r) up)) =
  climb_while_right_son (Ptr l n r) up.
Proof.
  revert l n up. induction r as [|rl _ rn rr IHr]; intros l n up.
  - reflexivity.
  - change (FindMaxIt (Ptr l n (Ptr rl rn rr)) up)
      with (FindMaxIt (Ptr rl rn rr) (RightSonOf l n :: up)).
    rewrite IHr. reflexivity.
Qed.

Lemma FindMaxIt_climb_right l n r up :
  exists tl tn tr,
    node_ptr (climb_while_right_son (Ptr l n r) up) = Ptr tl tn tr /\
    FindMaxIt (node_ptr (climb_while_right_son (Ptr l n r) up))
              (parents (climb_while_right_son (Ptr l n r) up)) =
    FindMaxIt (Ptr l n r) up.
Proof.
  revert l n r. induction up as [|f up IH]; intros l n r.
  - simpl. eauto.
  - destruct f as [pn pr|pl pn].
    + simpl. eauto.
    + destruct (IH pl pn (Ptr l n r)) as (tl & tn & tr & E1 & E2).
      exists tl, tn, tr. split; [exact E1|]. simpl in *. exact E2.
Qed.

Lemma FindMinIt_climb_left l n r up :
  exists tl tn tr,
    node_ptr (climb_while_left_son (Ptr l n r) up) = Ptr tl tn tr /\
    FindMinIt (node_ptr (climb_while_left_son (Ptr l n r) up))
              (parents (climb_while_left_son (Ptr l n r) up)) =
    FindMinIt (Ptr l n r) up.
Proof.
  revert l n r. induction up as [|f up IH]; intros l n r.
  - simpl. eauto.
  - destruct f as [pn pr|pl pn].
    + destruct (IH (Ptr l n r) pn pr) as (tl & tn & tr & E1 & E2).
      exists tl, tn, tr. split; [exact E1|]. simpl in *. exact E2.
    + simpl. eauto.
Qed.

(** X18.  [++] and [--] undo each other: when [++it] does not reach the end
    iterator, [--] brings it back to the node and the chain it came from,
    and the same with the two operators exchanged. *)
Theorem increment_decrement_round_trip it it' :
  node_ptr it' <> nullptr ->
  (increment it = Some it' -> decrement it' = Some it) /\
  (decrement it = Some it' -> increment it' = Some it).
Proof.
  intros Hv. destruct it as [[|l n r] up]; [split; discriminate|]. split.
  - unfold increment. cbn [node_ptr parents].
    destruct r as [|rl rn rr].
    + destruct (FindMaxIt_climb_right l n nullptr up)
        as (tl & tn & tr & E1 & E2).
      pose proof (climb_while_right_son_spec (Ptr l n nullptr) up) as Hs.
      cbn zeta in Hs. destruct Hs as (Hs & _).
      destruct (climb_while_right_son (Ptr l n nullptr) up) as [top tup].
      cbn [node_ptr parents] in *. subst top.
      destruct tup as [|[pn pr|pl pn] tup]; [| |discriminate].
      * intros [= <-]. now contradiction Hv.
      * intros [= <-]. unfold decrement. cbn [parent_lock plug node_ptr parents].
        rewrite E2. reflexivity.
    + intros H.
      assert (H' : it' = FindMinIt (Ptr rl rn rr) (RightSonOf l n :: up))
        by congruence.
      subst it'. clear H.
      destruct (FindMinIt_spec rl rn rr (RightSonOf l n :: up))
        as (m & mr & up' & E & _).
      pose proof (climb_left_FindMinIt rl rn rr (RightSonOf l n :: up)) as C.
      rewrite E in *. cbn [node_ptr parents] in C.
      unfold decrement. cbn [node_ptr parents]. rewrite C. reflexivity.
  - unfold decrement. cbn [node_ptr parents].
    destruct l as [|ll ln lr].
    + destruct (FindMinIt_climb_left nullptr n r up)
        as (tl & tn & tr & E1 & E2).
      pose proof (climb_while_left_son_spec (Ptr nullptr n r) up) as Hs.
      cbn zeta in Hs. destruct Hs as (Hs & _).
      destruct (climb_while_left_son (Ptr nullptr n r) up) as [top tup].
      cbn [node_ptr parents] in *. subst top.
      destruct tup as [|[pn pr|pl pn] tup]; [|discriminate|].
      * intros [= <-]. now contradiction Hv.
      * intros [= <-]. unfold increment. cbn [parent_lock plug node_ptr parents].
        rewrite E2. reflexivity.
    + intros H.
      assert (H' : it' = FindMaxIt (Ptr ll ln lr) (LeftSonOf n r :: up))
        by congruence.
      subst it'. clear H.
      destruct (FindMaxIt_spec ll ln lr (LeftSonOf n r :: up))
        as (ml & m & up' & E & _).
      pose proof (climb_right_FindMaxIt ll ln lr (LeftSonOf n r :: up)) as C.
      rewrite E in *. cbn [node_ptr parents] in C.
      unfold increment. cbn [node_ptr parents]. rewrite C. reflexivity.
Qed.

Lemma increment_decrement_round_trip_witness :
  decrement (mkIt (Ptr nullptr (mkNode 3 1 1 1) nullptr)
                  [RightSonOf (Ptr nullptr (mkNode 1 1 1 1) nullptr)
                              (mkNode 2 1 2 3)])
  = Some (mkIt (Ptr (Ptr nullptr (mkNode 1 1 1 1) nullptr) (mkNode 2 1 2 3)
                    (Ptr nullptr (mkNode 3 1 1 1) nullptr)) []).
Proof.
  apply (proj1 (increment_decrement_round_trip
                  (mkIt (Ptr (Ptr nullptr (mkNode 1 1 1 1) nullptr)
                             (mkNode 2 1 2 3)
                             (Ptr nullptr (mkNode 3 1 1 1) nullptr)) [])
                  (mkIt (Ptr nullptr (mkNode 3 1 1 1) nullptr)
                        [RightSonOf (Ptr nullptr (mkNode 1 1 1 1) nullptr)
                                    (mkNode 2 1 2 3)])
                  ltac:(discriminate))).
  reflexivity.
Defined.

(** ** The difference of heights *)

(** X19.  [HeightDiff] is the difference of the stored heights of the two
    sons when both are in the range of a non-negative [int]; the conversion
    of the [size_t] difference to [int] does not give the difference
    itself once a stored height reaches [2^31]. *)
Theorem HeightDiff_in_range l n r :
  (0 <= NodeHeight l <= INT_MAX -> 0 <= NodeHeight r <= INT_MAX ->
   HeightDiff (Ptr l n r) = NodeHeight l - NodeHeight r) /\
  HeightDiff (Ptr (Ptr nullptr (mkNode 0 1 (2 ^ 31) 1) nullptr) n nullptr)
  = - 2 ^ 31.
Proof.
  split; [|reflexivity].
  unfold INT_MAX. intros Hl Hr. apply HeightDiff_exact; lia.
Qed.

Lemma HeightDiff_in_range_witness :
  HeightDiff (Ptr nullptr (mkNode 2 1 3 1)
                  (Ptr nullptr (mkNode 3 1 2 1)
                       (Ptr nullptr (mkNode 4 1 1 1) nullptr))) = 0 - 2.
Proof.
  apply (proj1 (HeightDiff_in_range nullptr (mkNode 2 1 3 1)
                  (Ptr nullptr (mkNode 3 1 2 1)
                       (Ptr nullptr (mkNode 4 1 1 1) nullptr)))).
  - unfold INT_MAX. simpl. lia.
  - unfold INT_MAX. simpl. lia.
Defined.

(** ** Reverse iteration *)

Lemma radvance_last k r :
  radvance (S k) r = (r' <- radvance k r ;; rincrement r').
Proof.
  revert r. induction k as [|k IH]; intros r.
  - simpl. destruct (rincrement r); reflexivity.
  - change (radvance (S (S k)) r)
      with (r1 <- rincrement r ;; radvance (S k) r1).
    change (radvance (S k) r) with (r1 <- rincrement r ;; radvance k r1).
    destruct (rincrement r) as [r1|]; simpl; [apply IH|reflexivity].
Qed.

(** After [k >= 1] steps from the fake node the current iterator points
    into the tree and has the last [k] nodes from its own on. *)
Lemma radvance_from_fake l n r v k :
  (1 <= k <= nodes (Ptr l n r))%nat ->
  exists it,
    radvance k (FakeNode v (FindMaxIt (Ptr l n r) [])) = Some (RealNode it) /\
    node_ptr it <> nullptr /\
    whole (node_ptr it) (parents it) = Ptr l n r /\
    passed it ++ ahead it = inorder (Ptr l n r) /\
    length (ahead it) = k.
Proof.
  induction k as [|k IH]; intros Hk; [lia|].
  destruct k as [|k].
  - clear IH.
    destruct (FindMaxIt_spec l n r []) as (ml & m & up' & E & W & A & P).
    exists (mkIt (Ptr ml m nullptr) up').
    unfold radvance, rincrement, decrement_current.
    rewrite E. cbn [node_ptr parents bind]. split; [reflexivity|].
    split; [discriminate|]. split; [exact W|].
    unfold passed, ahead. cbn [node_ptr parents].
    rewrite A. simpl in *. split; [|reflexivity].
    rewrite <- app_assoc. exact P.
  - destruct IH as (it & E & Hv & Hw & Hl & Hlen); [lia|].
    rewrite radvance_last, E. cbn [bind].
    destruct it as [[|il i_n ir] up]; [exfalso; apply Hv; reflexivity|].
    destruct (decrement_spec il i_n ir up) as (it' & E' & Hm).
    unfold rincrement, decrement_current. rewrite E'. cbn [bind].
    exists it'. split; [reflexivity|].
    cbn [node_ptr parents] in *.
    assert (Hlen' : length (passed (mkIt (Ptr il i_n ir) up)) =
                    (nodes (Ptr l n r) - S k)%nat).
    { apply (f_equal (@length _)) in Hl.
      rewrite length_app, length_inorder in Hl. lia. }
    destruct (node_ptr it') as [|ml m mr] eqn:Hn.
    + destruct Hm as [_ Hp]. unfold passed in Hlen'.
      cbn [node_ptr parents] in Hlen'. rewrite Hp in Hlen'.
      exfalso. simpl in Hlen', Hk. lia.
    + destruct Hm as (Hp & Ha & Hw'). split; [discriminate|].
      split; [now rewrite Hw'|]. split.
      * rewrite Ha. unfold passed at 1 in Hl. unfold ahead in Hl.
        cbn [node_ptr parents] in Hl. rewrite <- Hp, <- app_assoc in Hl.
        exact Hl.
      * rewrite Ha. unfold ahead in Hlen. cbn [node_ptr parents] in Hlen.
        simpl in *. lia.
Qed.

Lemma FindMin_whole node up :
  node <> nullptr -> passed_above up = [] ->
  FindMin (whole node up) = FindMin node.
Proof.
  revert node. induction up as [|f up IH]; intros node Hn Hp; [reflexivity|].
  destruct f as [pn pr|pl pn]; simpl in Hp.
  - simpl. rewrite IH; [|discriminate|exact Hp].
    destruct node; [congruence|reflexivity].
  - exfalso. destruct (passed_above up); simpl in Hp;
      [destruct (inorder pl); discriminate|discriminate].
Qed.

(** X20.  [RBegin()] dereferences the null [root_] on the empty tree.  On a
    tree with nodes, after [k] applications of [++] to [RBegin()], for [k]
    below the number of nodes, [*r] is the [k]-th value of the in-order
    sequence read backwards; after as many steps as there are nodes the
    current iterator holds the node of [Begin()], which is what [REnd()]
    holds. *)
Theorem reverse_iteration t :
  (root_ t = nullptr -> RBegin t = None) /\
  (forall k, (k < nodes (root_ t))%nat ->
     exists r0 r,
       RBegin t = Some r0 /\ radvance k r0 = Some r /\
       rderef r = nth_error (rev (values (root_ t))) k) /\
  (root_ t <> nullptr ->
     exists r0 it,
       RBegin t = Some r0 /\
       radvance (nodes (root_ t)) r0 = Some (RealNode it) /\
       node_ptr it = Begin t).
Proof.
  unfold RBegin, CreateFakeNodeWithLeftSon, Begin.
  destruct (root_ t) as [|l n r] eqn:Hr.
  - split; [reflexivity|]. split; [simpl; intros; lia|congruence].
  - split; [discriminate|]. split.
    + intros k Hk.
      destruct (radvance_from_fake l n r (value_ n) (S k) ltac:(lia))
        as (it' & E' & Hv & _ & Hl & Hlen).
      rewrite radvance_last in E'.
      destruct (radvance k (FakeNode (value_ n) (FindMaxIt (Ptr l n r) [])))
        as [rk|] eqn:Ek; [|discriminate].
      cbn [bind] in E'. exists (FakeNode (value_ n) (FindMaxIt (Ptr l n r) [])), rk.
      split; [reflexivity|]. split; [exact Ek|].
      unfold rderef. unfold rincrement in E'.
      destruct (decrement_current rk) as [tmp|]; [|discriminate].
      cbn [bind] in *. assert (tmp = it') by congruence. subst tmp.
      assert (Hlv : length (values (Ptr l n r)) = nodes (Ptr l n r)).
      { unfold values. now rewrite length_map, length_inorder. }
      assert (Hp : length (passed it') = (nodes (Ptr l n r) - S k)%nat).
      { apply (f_equal (@length _)) in Hl.
        rewrite length_app, length_inorder in Hl. lia. }
      rewrite nth_error_rev, Hlv.
      destruct (Nat.ltb_spec k (nodes (Ptr l n r))) as [_|]; [|lia].
      unfold values. rewrite <- Hl, map_app.
      rewrite nth_error_app2 by (rewrite length_map, Hp; lia).
      rewrite length_map, Hp, Nat.sub_diag.
      unfold ahead. destruct (node_ptr it'); [congruence|reflexivity].
    + intros _.
      destruct (radvance_from_fake l n r (value_ n) (nodes (Ptr l n r)))
        as (it & E & Hv & Hw & Hl & Hlen).
      { simpl. lia. }
      exists (FakeNode (value_ n) (FindMaxIt (Ptr l n r) [])), it.
      split; [reflexivity|]. split; [exact E|].
      assert (Hp : passed it = []).
      { apply (f_equal (@length _)) in Hl.
        rewrite length_app, length_inorder, Hlen in Hl.
        destruct (passed it); [reflexivity|simpl in Hl; lia]. }
      destruct it as [[|il i_n ir] up]; [now contradiction Hv|].
      unfold passed in Hp. cbn [node_ptr parents] in *.
      apply app_eq_nil in Hp. destruct Hp as [Hup Hil].
      rewrite <- Hw, FindMin_whole by (assumption || discriminate).
      destruct il; [reflexivity|].
      simpl in Hil. now destruct (inorder il1).
Qed.

Lemma reverse_iteration_witness :
  exists r0 r,
    RBegin (mkTree (Ptr (Ptr nullptr (mkNode 1 1 1 1) nullptr)
                        (mkNode 2 1 2 3)
                        (Ptr nullptr (mkNode 3 1 1 1) nullptr)) 3) = Some r0 /\
    radvance 1 r0 = Some r /\
    rderef r = nth_error (rev [1; 2; 3]) 1.
Proof.
  apply (proj1 (proj2 (reverse_iteration
           (mkTree (Ptr (Ptr nullptr (mkNode 1 1 1 1) nullptr)
                        (mkNode 2 1 2 3)
                        (Ptr nullptr (mkNode 3 1 1 1) nullptr)) 3))) 1%nat).
  simpl. lia.
Defined.

(** ** Sequences of calls *)

Lemma run_keeps_bst cls ms ops t t' :
  bst (root_ t) -> run cls ms ops t = Some t' -> bst (root_ t').
Proof.
  revert t. induction ops as [|o ops IH]; intros t Hb H.
  - simpl in H. now injection H as <-.
  - apply run_cons in H. destruct H as (t1 & H1 & H2).
    apply (IH t1); [|exact H2].
    now apply (step_entries _ _ _ _ _ Hb H1).
Qed.

(** X21.  In a state reached from the empty tree by at most [INT_MAX - 1]
    calls, in every class and mode, the only call without a defined result
    is an [Erase] that leaves no node: every [Insert] returns, and [Erase(v)]
    returns unless the tree is empty or holds [v] alone. *)
Theorem only_emptying_Erase_is_undefined
        (cls : TreeClass) (ms : bool) ops t o :
  Z.of_nat (length ops) <= INT_MAX - 1 ->
  run cls ms ops empty_tree = Some t ->
  (step cls ms o t = None <->
   exists v, o = OErase v /\
             (values (root_ t) = [] \/ values (root_ t) = [v])).
Proof.
  intros Hlen H.
  pose proof (run_keeps_bst cls ms ops empty_tree t I H) as Hb.
  pose proof (reachable_sane cls ms ops t Hlen H) as Hs.
  destruct o as [v|v]; simpl.
  - destruct (Insert_returns cls ms v t Hs) as (t' & E). rewrite E. split.
    + discriminate.
    + intros (v' & Ho & _). discriminate.
  - assert (Hiff : EraseRecursive v (root_ t) = nullptr <->
                   values (root_ t) = [] \/ values (root_ t) = [v]).
    { rewrite !values_entries.
      rewrite <- del_list_nil
        by (rewrite <- values_entries; now apply bst_sorted).
      rewrite <- (EraseRecursive_entries v _ Hb). split.
      - now intros ->.
      - apply entries_nil. }
    rewrite Erase_None, Hiff. split.
    + intros E. exists v. tauto.
    + intros (v' & Ho & E). injection Ho as <-. exact E.
Qed.

Lemma only_emptying_Erase_is_undefined_witness :
  step TAvlTree false (OErase 5)
       (mkTree (Ptr nullptr (mkNode 5 1 1 1) nullptr) 1) = None <->
  exists v, OErase 5 = OErase v /\
            (values (Ptr nullptr (mkNode 5 1 1 1) nullptr) = [] \/
             values (Ptr nullptr (mkNode 5 1 1 1) nullptr) = [v]).
Proof.
  apply (only_emptying_Erase_is_undefined TAvlTree false [OInsert 5]
           (mkTree (Ptr nullptr (mkNode 5 1 1 1) nullptr) 1) (OErase 5)).
  - unfold INT_MAX. simpl. lia.
  - reflexivity.
Defined.

Lemma step_membership cls ms o t t' w :
  bst (root_ t) -> step cls ms o t = Some t' ->
  (In w (values (root_ t')) <->
   match o with
   | OInsert v => w = v \/ In w (values (root_ t))
   | OErase v => w <> v /\ In w (values (root_ t))
   end).
Proof.
  intros Hb H. destruct (step_entries _ _ _ _ _ Hb H) as [_ He].
  rewrite !values_entries, He. destruct o as [v|v]; simpl.
  - apply In_ins_list.
  - apply In_del_list.
Qed.

(** X22.  After a sequence of calls that return on the empty tree, in every
    class and mode, [Exsist(w)] is true exactly when [w] was inserted at
    some point and not erased afterwards. *)
Theorem Exsist_after_calls (cls : TreeClass) (ms : bool) ops t w :
  run cls ms ops empty_tree = Some t ->
  (Exsist w t = true <->
   exists pre post,
     ops = pre ++ OInsert w :: post /\ ~ In (OErase w) post).
Proof.
  intros H.
  rewrite (Exsist_In w t (run_keeps_bst cls ms ops empty_tree t I H)).
  revert t H. induction ops as [|o ops IH] using rev_ind; intros t H.
  - simpl in H. injection H as <-. simpl. split; [contradiction|].
    intros (pre & post & E & _). now destruct pre.
  - rewrite run_app in H. bind_inv H. simpl in H. bind_inv H.
    injection H as <-.
    pose proof (run_keeps_bst cls ms ops empty_tree t0 I E) as Hb0.
    rewrite (step_membership cls ms o t0 t1 w Hb0 E0).
    specialize (IH t0 eq_refl).
    assert (Hsplit : forall pre post,
               ops ++ [o] = pre ++ OInsert w :: post ->
               (post = [] /\ ops = pre /\ o = OInsert w) \/
               exists post', post = post' ++ [o] /\
                             ops = pre ++ OInsert w :: post').
    { intros pre post Eq.
      destruct post as [|x post] using rev_ind.
      - left. change (pre ++ [OInsert w]) with (pre ++ [OInsert w]) in Eq.
        apply app_inj_tail in Eq. tauto.
      - right. clear IHpost. exists post.
        rewrite app_comm_cons, app_assoc in Eq.
        apply app_inj_tail in Eq. destruct Eq as [-> ->]. tauto. }
    destruct o as [v|v].
    + split.
      * intros [->|Hin].
        -- exists ops, []. split; [reflexivity|]. intros [].
        -- apply IH in Hin. destruct Hin as (pre & post & -> & Hn).
           exists pre, (post ++ [OInsert v]). split.
           ++ now rewrite <- app_assoc.
           ++ rewrite in_app_iff. intros [Hp|[Hp|[]]]; [tauto|discriminate].
      * intros (pre & post & Eq & Hn).
        destruct (Hsplit pre post Eq) as [(_ & _ & Ho)|(post' & -> & ->)].
        -- left. congruence.
        -- right. apply IH. exists pre, post'. split; [reflexivity|].
           intros Hin. apply Hn. rewrite in_app_iff. tauto.
    + split.
      * intros [Hne Hin]. apply IH in Hin.
        destruct Hin as (pre & post & -> & Hn).
        exists pre, (post ++ [OErase v]). split.
        -- now rewrite <- app_assoc.
        -- rewrite in_app_iff. intros [Hp|[Hp|[]]]; [tauto|congruence].
      * intros (pre & post & Eq & Hn).
        destruct (Hsplit pre post Eq) as [(_ & _ & Ho)|(post' & -> & ->)];
          [discriminate|].
        split.
        -- intros ->. apply Hn. rewrite in_app_iff. simpl. tauto.
        -- apply IH. exists pre, post'. split; [reflexivity|].
           intros Hin. apply Hn. rewrite in_app_iff. tauto.
Qed.

Lemma Exsist_after_calls_witness :
  Exsist 3 (mkTree (Ptr nullptr (mkNode 2 1 2 1)
                        (Ptr nullptr (mkNode 3 1 1 1) nullptr)) 3) = true <->
  exists pre post,
    [OInsert 3; OInsert 2; OErase 3; OInsert 3] = pre ++ OInsert 3 :: post /\
    ~ In (OErase 3) post.
Proof.
  apply (Exsist_after_calls TAvlTree false
           [OInsert 3; OInsert 2; OErase 3; OInsert 3]
           (mkTree (Ptr nullptr (mkNode 2 1 2 1)
                        (Ptr nullptr (mkNode 3 1 1 1) nullptr)) 3) 3).
  vm_compute. reflexivity.
Defined.

(** ** The base class does not balance *)

Lemma InsertRecursive_base_max ms v p s :
  All (fun w => w < v) p ->
  exists p',
    InsertRecursive TSearchTree ms v p s = Some (p', to_size_t (s + 1)) /\
    right_spine p' = right_spine p + 1 /\
    height p' = Z.max (height p) (right_spine p + 1) /\
    values p' = values p ++ [v].
Proof.
  induction p as [|l _ n r IHr]; simpl.
  - intros _. eexists. split; [reflexivity|]. repeat split.
  - intros (_ & Hn & Hr).
    destruct (Z.eqb_spec (value_ n) v) as [E|_]; [lia|].
    destruct (Z.gtb_spec (value_ n) v) as [G|_]; [lia|].
    destruct (IHr Hr) as (r' & E & Hs & Hh & Hv).
    rewrite E. cbn [bind Balance]. eexists. split; [reflexivity|].
    cbn [right_spine height]. rewrite !values_Ptr, Hv, Hs, Hh.
    pose proof (height_nonneg l). pose proof (height_nonneg r).
    repeat split; try lia. now rewrite <- app_assoc.
Qed.

(** X23.  [TSearchTree], whose [Balance] returns its node, degenerates into
    a list on increasing input: inserting a strictly increasing sequence of
    values into the empty tree gives a tree whose height is the number of
    values. *)
Theorem base_class_degenerates (ms : bool) vs :
  sorted vs ->
  exists t,
    run TSearchTree ms (map OInsert vs) empty_tree = Some t /\
    values (root_ t) = vs /\
    height (root_ t) = Z.of_nat (length vs).
Proof.
  intros Hs.
  assert (G : exists t,
             run TSearchTree ms (map OInsert vs) empty_tree = Some t /\
             values (root_ t) = vs /\
             height (root_ t) = Z.of_nat (length vs) /\
             right_spine (root_ t) = Z.of_nat (length vs)).
  { induction vs as [|v vs IH] using rev_ind.
    - exists empty_tree. repeat split.
    - assert (Hs' : sorted vs /\ Forall (fun w => w < v) vs).
      { apply sorted_app in Hs. tauto. }
      destruct Hs' as [Hs' Hlt].
      destruct (IH Hs') as (t0 & E & Hv & Hh & Hr).
      destruct (InsertRecursive_base_max ms v (root_ t0) (size_ t0))
        as (p' & Ei & Hsp & Hhp & Hvp).
      { apply All_Forall. now rewrite Hv. }
      pose proof (InsertRecursive_not_null _ _ _ _ _ _ _ Ei) as Hn.
      destruct p' as [|pl pn pr]; [congruence|].
      eexists. rewrite map_app, run_app, E. cbn [bind map run step].
      unfold Insert. rewrite Ei. cbn [bind]. split; [reflexivity|].
      cbn [root_]. rewrite length_app, Nat2Z.inj_add. cbn [length].
      rewrite Hvp, Hv, Hhp, Hsp, Hh, Hr. repeat split; lia. }
  destruct G as (t & E & Hv & Hh & _). eauto.
Qed.

Lemma base_class_degenerates_witness :
  exists t,
    run TSearchTree false (map OInsert [1; 2; 3; 4]) empty_tree = Some t /\
    values (root_ t) = [1; 2; 3; 4] /\
    height (root_ t) = Z.of_nat (length [1; 2; 3; 4]).
Proof.
  apply (base_class_degenerates false [1; 2; 3; 4]).
  simpl. repeat constructor; lia.
Defined.
